(** * Traffic intersection simulation: the phase-cycling state machine

    A shallow embedding of [traffic.py]: the per-lane signal head
    ([TrafficLight]), its timing configuration ([SignalPhase]) and the
    coordinator ([IntersectionController]) with its all-red interval,
    followed by the properties of the tick protocol. *)

From Stdlib Require Import ZArith Lia Sorted.
From stdpp Require Import gmap strings list fin_maps pretty.

Local Open Scope Z_scope.

(** ** Data model *)

(** Python raises on a failed subscript or a division by zero; the
    controller's [update] is the only operation that evaluates such
    expressions. *)
Inductive exn : Type :=
  | IndexError
  | KeyError
  | ZeroDivisionError.

Inductive result (A : Type) : Type :=
  | Ok (a : A)
  | Raise (e : exn).

Arguments Ok {A} a.
Arguments Raise {A} e.

(** Sequencing stops at the first exception. *)
Global Instance result_bind : MBind result := λ A B k r,
  match r with
  | Ok a => k a
  | Raise e => Raise e
  end.

(** The three values ever stored in [TrafficLight.state]. *)
Inductive Color : Type := RED | GREEN | YELLOW.

Global Instance Color_eq_dec : EqDecision Color.
Proof. solve_decision. Defined.

(** [class SignalPhase]: Python integers are unbounded, and nothing
    restricts their sign. *)
Record SignalPhase : Type := mkSignalPhase {
  green_time : Z;
  yellow_time : Z;
  red_time : Z
}.

(** [SignalPhase.__init__(green_time, yellow_time)] *)
Definition SignalPhase_init (g y : Z) : SignalPhase :=
  {| green_time := g; yellow_time := y; red_time := 0 |}.

(** [class TrafficLight] *)
Record TrafficLight : Type := mkTrafficLight {
  signal_phase : SignalPhase;
  state : Color;
  timer : Z
}.

(** [TrafficLight.__init__(signal_phase)] *)
Definition TrafficLight_init (p : SignalPhase) : TrafficLight :=
  {| signal_phase := p; state := RED; timer := red_time p |}.

(** [TrafficLight.__advance_state] *)
Definition advance_state (l : TrafficLight) : TrafficLight :=
  match state l with
  | RED =>
      {| signal_phase := signal_phase l; state := GREEN;
         timer := green_time (signal_phase l) |}
  | GREEN =>
      {| signal_phase := signal_phase l; state := YELLOW;
         timer := yellow_time (signal_phase l) |}
  | YELLOW =>
      {| signal_phase := signal_phase l; state := RED;
         timer := red_time (signal_phase l) |}
  end.

(** [TrafficLight.update] *)
Definition TrafficLight_update (l : TrafficLight) : TrafficLight :=
  let l1 := {| signal_phase := signal_phase l; state := state l;
               timer := timer l - 1 |} in
  if timer l1 <? 0 then advance_state l1 else l1.

(** A lane is identified by the tuple [(direction, lane_type)]. *)
Definition LaneKey : Type := string * string.

(** An entry of [current_group_phase]: a list of lane keys. *)
Definition PhaseGroup : Type := list LaneKey.

(** [class IntersectionController].  [current_group] starts at 0 and is
    only ever assigned a remainder modulo a list length, so it is a
    natural number; [ctimer] is the controller's own [timer] field, the
    display counter. *)
Record IntersectionController : Type := mkController {
  all_red_time : Z;
  time_in_all_red : Z;
  ctimer : Z;
  lights : gmap LaneKey TrafficLight;
  current_group : nat;
  current_group_phase : list PhaseGroup
}.

(** [IntersectionController.__init__(all_red_time=4)] *)
Definition IntersectionController_init (art : Z) : IntersectionController :=
  {| all_red_time := art; time_in_all_red := 0; ctimer := 0;
     lights := ∅; current_group := 0%nat; current_group_phase := [] |}.

(** [add_light]: a re-used key overwrites the light but still appends a
    group. *)
Definition add_light (c : IntersectionController)
    (direction lane_type : string) (p : SignalPhase) : IntersectionController :=
  {| all_red_time := all_red_time c;
     time_in_all_red := time_in_all_red c;
     ctimer := ctimer c;
     lights := <[(direction, lane_type) := TrafficLight_init p]> (lights c);
     current_group := current_group c;
     current_group_phase :=
       current_group_phase c ++ [[(direction, lane_type)]] |}.

(** The [else] branch of the dispatch loop:
    [if light.state != 'RED': light.state = 'RED']. *)
Definition force_red (l : TrafficLight) : TrafficLight :=
  if decide (state l ≠ RED)
  then {| signal_phase := signal_phase l; state := RED; timer := timer l |}
  else l.

(** [key in group] on a Python list. *)
Definition key_in (k : LaneKey) (g : PhaseGroup) : bool :=
  bool_decide (k ∈ g).

(** The [for key, light in self.lights.items()] loop.  The subscript
    [current_group_phase[current_group]] is evaluated inside the body, so
    it can only fail when there is at least one light. *)
Definition dispatch (c : IntersectionController)
    : result (gmap LaneKey TrafficLight) :=
  if decide (lights c = ∅) then Ok (lights c)
  else
    match current_group_phase c !! current_group c with
    | None => Raise IndexError
    | Some g =>
        Ok (map_imap
              (λ k l, Some (if key_in k g then TrafficLight_update l
                            else force_red l))
              (lights c))
    end.

(** The generator handed to [all(...)]: for each entry [key] of
    [current_group_phase], the light stored under [key[0]] must be RED
    with timer 0; [all] stops at the first entry that is not. *)
Fixpoint all_red_zero (ls : gmap LaneKey TrafficLight)
    (groups : list PhaseGroup) : result bool :=
  match groups with
  | [] => Ok true
  | g :: rest =>
      match g with
      | [] => Raise IndexError
      | k :: _ =>
          match ls !! k with
          | None => Raise KeyError
          | Some l =>
              if bool_decide (state l = RED) && (timer l =? 0)
              then all_red_zero ls rest
              else Ok false
          end
      end
  end.

(** [IntersectionController.update] *)
Definition update (c : IntersectionController)
    : result IntersectionController :=
  if 1 <? time_in_all_red c then
    Ok {| all_red_time := all_red_time c;
          time_in_all_red := time_in_all_red c - 1;
          ctimer := ctimer c;
          lights := lights c;
          current_group := current_group c;
          current_group_phase := current_group_phase c |}
  else
    ls ← dispatch c;
    done ← all_red_zero ls (current_group_phase c);
    if (done : bool) then
      if decide (length (current_group_phase c) = 0%nat)
      then Raise ZeroDivisionError
      else
        Ok {| all_red_time := all_red_time c;
              time_in_all_red := all_red_time c;
              ctimer := ctimer c;
              lights := ls;
              current_group :=
                ((current_group c + 1) `mod` length (current_group_phase c))%nat;
              current_group_phase := current_group_phase c |}
    else
      Ok {| all_red_time := all_red_time c;
            time_in_all_red := time_in_all_red c;
            ctimer := ctimer c;
            lights := ls;
            current_group := current_group c;
            current_group_phase := current_group_phase c |}.

(** Python orders strings by code point, tuples and lists
    lexicographically, a proper prefix first. *)
Definition key_ltb (a b : LaneKey) : bool :=
  if decide (a.1 = b.1) then String.ltb a.2 b.2 else String.ltb a.1 b.1.

Fixpoint group_ltb (g h : PhaseGroup) : bool :=
  match g, h with
  | [], [] => false
  | [], _ :: _ => true
  | _ :: _, [] => false
  | a :: g', b :: h' =>
      if decide (a = b) then group_ltb g' h' else key_ltb a b
  end.

(** Stable insertion into a list in descending order. *)
Fixpoint insert_desc (x : PhaseGroup) (l : list PhaseGroup)
    : list PhaseGroup :=
  match l with
  | [] => [x]
  | y :: l' => if group_ltb x y then y :: insert_desc x l' else x :: l
  end.

(** [list.sort(reverse=True)] *)
Definition sort_desc (l : list PhaseGroup) : list PhaseGroup :=
  foldr insert_desc [] l.

(** [IntersectionController.sort_lights] *)
Definition sort_lights (c : IntersectionController) : IntersectionController :=
  {| all_red_time := all_red_time c;
     time_in_all_red := time_in_all_red c;
     ctimer := ctimer c;
     lights := lights c;
     current_group := current_group c;
     current_group_phase := sort_desc (current_group_phase c) |}.

(** [IntersectionController.update_timer] *)
Definition update_timer (c : IntersectionController) : IntersectionController :=
  {| all_red_time := all_red_time c;
     time_in_all_red := time_in_all_red c;
     ctimer := ctimer c + 1;
     lights := lights c;
     current_group := current_group c;
     current_group_phase := current_group_phase c |}.

(** ** Derived notions used in the statements *)

(** The cyclic successor RED → GREEN → YELLOW → RED. *)
Definition next_state (s : Color) : Color :=
  match s with RED => GREEN | GREEN => YELLOW | YELLOW => RED end.

(** The configured duration of a state. *)
Definition duration (p : SignalPhase) (s : Color) : Z :=
  match s with
  | RED => red_time p
  | GREEN => green_time p
  | YELLOW => yellow_time p
  end.

(** [n] successive calls of [TrafficLight.update]. *)
Definition ticks (n : nat) (l : TrafficLight) : TrafficLight :=
  Nat.iter n TrafficLight_update l.

(** [n] successive calls of the controller's [update]; an exception ends
    the run. *)
Fixpoint run (n : nat) (c : IntersectionController)
    : result IntersectionController :=
  match n with
  | O => Ok c
  | S n' => c' ← update c; run n' c'
  end.

(** A lane as the configuration loop registers it: direction, lane type
    and the two durations of its phase. *)
Definition LaneSpec : Type := LaneKey * (Z * Z).

Definition add_lane (c : IntersectionController) (s : LaneSpec)
    : IntersectionController :=
  add_light c s.1.1 s.1.2 (SignalPhase_init s.2.1 s.2.2).

(** The controller after the given [add_light] calls, in order. *)
Definition build (art : Z) (lanes : list LaneSpec) : IntersectionController :=
  foldl add_lane (IntersectionController_init art) lanes.

(** The states a light can be in during a run: freshly constructed, ticked,
    or forced to red by the controller. *)
Inductive light_reachable (p : SignalPhase) : TrafficLight → Prop :=
  | lr_init : light_reachable p (TrafficLight_init p)
  | lr_update l :
      light_reachable p l → light_reachable p (TrafficLight_update l)
  | lr_force l :
      light_reachable p l → light_reachable p (force_red l).

Definition phase_nonneg (p : SignalPhase) : Prop :=
  0 ≤ green_time p ∧ 0 ≤ yellow_time p ∧ 0 ≤ red_time p.

(** ** Notions about the controller *)

(** RED with timer exactly 0: the condition the completion check tests. *)
Definition red_zero (l : TrafficLight) : bool :=
  bool_decide (state l = RED) && (timer l =? 0).

(** Every lane of the group [g] is registered, RED and at timer 0. *)
Definition group_complete (ls : gmap LaneKey TrafficLight) (g : PhaseGroup)
    : bool :=
  forallb (λ k, match ls !! k with Some l => red_zero l | None => false end) g.

(** The lights after the dispatch loop ran with active group [g]. *)
Definition dispatched (c : IntersectionController) (g : PhaseGroup)
    : gmap LaneKey TrafficLight :=
  map_imap
    (λ k l, Some (if key_in k g then TrafficLight_update l else force_red l))
    (lights c).

(** The three ways a call of [update] can end. *)
Definition gated (c : IntersectionController) : IntersectionController :=
  {| all_red_time := all_red_time c;
     time_in_all_red := time_in_all_red c - 1;
     ctimer := ctimer c;
     lights := lights c;
     current_group := current_group c;
     current_group_phase := current_group_phase c |}.

Definition advanced (c : IntersectionController)
    (ls : gmap LaneKey TrafficLight) : IntersectionController :=
  {| all_red_time := all_red_time c;
     time_in_all_red := all_red_time c;
     ctimer := ctimer c;
     lights := ls;
     current_group :=
       ((current_group c + 1) `mod` length (current_group_phase c))%nat;
     current_group_phase := current_group_phase c |}.

Definition stayed (c : IntersectionController)
    (ls : gmap LaneKey TrafficLight) : IntersectionController :=
  {| all_red_time := all_red_time c;
     time_in_all_red := time_in_all_red c;
     ctimer := ctimer c;
     lights := ls;
     current_group := current_group c;
     current_group_phase := current_group_phase c |}.

(** The states of a run: lanes are registered, the groups are sorted, and
    [update] is called any number of times. *)
Inductive reachable : IntersectionController → Prop :=
  | reach_start art s lanes :
      reachable (sort_lights (build art (s :: lanes)))
  | reach_update c c' :
      reachable c → update c = Ok c' → reachable c'.

(** What the construction path establishes and every tick maintains. *)
Record Inv (c : IntersectionController) : Prop := {
  inv_groups : ∀ g, g ∈ current_group_phase c →
    ∃ k, g = [k] ∧ is_Some (lights c !! k);
  inv_lights : ∀ k, is_Some (lights c !! k) → [k] ∈ current_group_phase c;
  inv_index : (current_group c < length (current_group_phase c))%nat;
  inv_idle : ∀ g k l,
    current_group_phase c !! current_group c = Some g →
    lights c !! k = Some l → k ∉ g → state l = RED ∧ timer l = 0
}.

(** The state left by the [add_light] calls, before any tick. *)
Record Fresh (c : IntersectionController) : Prop := {
  fresh_clear : time_in_all_red c = 0;
  fresh_index : current_group c = 0%nat;
  fresh_groups : ∀ g, g ∈ current_group_phase c ↔
    ∃ k, g = [k] ∧ is_Some (lights c !! k);
  fresh_red : ∀ k l, lights c !! k = Some l → state l = RED ∧ timer l = 0
}.

(** The controller [c] with [j] seconds taken off the clearance counter. *)
Definition counting (c : IntersectionController) (j : nat)
    : IntersectionController :=
  {| all_red_time := all_red_time c;
     time_in_all_red := time_in_all_red c - Z.of_nat j;
     ctimer := ctimer c;
     lights := lights c;
     current_group := current_group c;
     current_group_phase := current_group_phase c |}.

(** The tick from [c] to [c'] passed the gate and found the active group
    complete: all of its lanes RED with timer 0. *)
Definition completes (c c' : IntersectionController) : Prop :=
  update c = Ok c' ∧ time_in_all_red c ≤ 1
  ∧ ∃ g : PhaseGroup,
      current_group_phase c !! current_group c = Some g
      ∧ group_complete (lights c') g = true.

(** [d] further ticks from [c] all succeed and leave every light as it
    is in [c]. *)
Definition frozen_for (d : nat) (c : IntersectionController) : Prop :=
  ∀ j, (j ≤ d)%nat → ∃ cj, run j c = Ok cj ∧ lights cj = lights c.

(** The clearance property read with the full duration: once a group has
    completed, [all_red_time] further ticks leave every light frozen. *)
Definition clearance_as_stated : Prop :=
  ∀ c c', reachable c → completes c c' →
    frozen_for (Z.to_nat (all_red_time c)) c'.

(** ** Scenarios *)

(** The state after [n] ticks (the start state if a tick raises). *)
Definition after (n : nat) (c : IntersectionController)
    : IntersectionController :=
  match run n c with Ok c' => c' | Raise _ => c end.

(** One through lane, green 3, yellow 2, all-red time 4. *)
Definition single_lane : IntersectionController :=
  sort_lights (build 4 [(("NS", "through"), (3, 2))]).

(** Two lanes, green 2, yellow 1, all-red time 2. *)
Definition two_lanes : IntersectionController :=
  sort_lights (build 2 [(("EW", "left-turn"), (2, 1));
                        (("NS", "through"), (2, 1))]).

(** The same two lanes, registered in ascending order and never sorted. *)
Definition unsorted_lanes : IntersectionController :=
  build 4 [(("EW", "left-turn"), (2, 1)); (("NS", "through"), (2, 1))].

(** A hand-made state in which a lane outside the active group is not
    RED. *)
Definition stray_yellow : IntersectionController :=
  {| all_red_time := 4; time_in_all_red := 0; ctimer := 0;
     lights :=
       {[ ("NS", "through") :=
            {| signal_phase := SignalPhase_init 3 2; state := GREEN;
               timer := 2 |};
          ("EW", "through") :=
            {| signal_phase := SignalPhase_init 3 2; state := YELLOW;
               timer := 1 |} ]};
     current_group := 0%nat;
     current_group_phase := [[("NS", "through")]; [("EW", "through")]] |}.

(** A group of two lanes cannot be produced by [add_light]; on such a
    hand-made state the check reads only the first key of each group. *)
Definition paired_lanes : IntersectionController :=
  {| all_red_time := 4; time_in_all_red := 0; ctimer := 0;
     lights :=
       {[ ("NS", "through") :=
            {| signal_phase := SignalPhase_init 3 2; state := YELLOW;
               timer := 0 |};
          ("NS", "left-turn") :=
            {| signal_phase := SignalPhase_init 5 2; state := GREEN;
               timer := 3 |} ]};
     current_group := 0%nat;
     current_group_phase := [[("NS", "through"); ("NS", "left-turn")]] |}.

(** ** Further notions: the cycle of one light *)

(** The number of ticks of one full cycle RED → GREEN → YELLOW → RED; a
    negative duration holds its state for a single tick, like 0. *)
Definition cycle_ticks (p : SignalPhase) : nat :=
  Z.to_nat (1 + Z.max 0 (green_time p) + 1 + Z.max 0 (yellow_time p) + 1).

(** ** Further notions: the order of the groups *)

(** [a] is not below [b] in the order tested by [ltb]. *)
Definition not_below {A : Type} (ltb : A → A → bool) (a b : A) : Prop :=
  ltb a b = false.

(** [g] is not below [h] in Python's order on lists of tuples. *)
Definition group_ge (g h : PhaseGroup) : Prop := group_ltb g h = false.

(** [sorted(..., reverse=True)] for the order tested by [ltb]: stable
    insertion into a descending list. *)
Fixpoint insert_desc_by {A : Type} (ltb : A → A → bool) (x : A) (l : list A)
    : list A :=
  match l with
  | [] => [x]
  | y :: l' => if ltb x y then y :: insert_desc_by ltb x l' else x :: l
  end.

Definition sort_desc_by {A : Type} (ltb : A → A → bool) (l : list A)
    : list A :=
  foldr (insert_desc_by ltb) [] l.

(** A strict total order given by a boolean test. *)
Record StrictTotal {A : Type} (ltb : A → A → bool) : Prop := {
  st_asym : ∀ a b, ltb a b = true → ltb b a = false;
  st_trans : ∀ a b c, ltb a b = true → ltb b c = true → ltb a c = true;
  st_total : ∀ a b, ltb a b = false → ltb b a = false → a = b
}.

(** ** Further notions: sequences of calls *)

(** A call of one of the controller's state-changing methods. *)
Inductive call : Type :=
  | AddLight (direction lane_type : string) (p : SignalPhase)
  | Update
  | SortLights
  | UpdateTimer.

Definition exec (c : IntersectionController) (op : call)
    : result IntersectionController :=
  match op with
  | AddLight d t p => Ok (add_light c d t p)
  | Update => update c
  | SortLights => Ok (sort_lights c)
  | UpdateTimer => Ok (update_timer c)
  end.

(** The calls in order; the first exception ends the sequence. *)
Fixpoint exec_all (c : IntersectionController) (ops : list call)
    : result IntersectionController :=
  match ops with
  | [] => Ok c
  | op :: rest => c' ← exec c op; exec_all c' rest
  end.

(** The light [add_light] stores for a lane. *)
Definition fresh_light (s : LaneSpec) : TrafficLight :=
  TrafficLight_init (SignalPhase_init s.2.1 s.2.2).

(** What [update] needs in order not to raise: every group has a first
    key, that key is registered, and the active index is in range. *)
Record Shape (c : IntersectionController) : Prop := {
  shape_groups : ∀ g, g ∈ current_group_phase c →
    ∃ k rest, g = k :: rest ∧ is_Some (lights c !! k);
  shape_index : (current_group c < length (current_group_phase c))%nat
}.

(** ** Further notions: turns *)

(** The gated ticks that precede the next dispatch. *)
Definition gate_ticks (c : IntersectionController) : nat :=
  (Z.to_nat (Z.max 1 (time_in_all_red c)) - 1)%nat.

(** The light of the first lane of the active group. *)
Definition active_light (c : IntersectionController) : option TrafficLight :=
  g ← current_group_phase c !! current_group c;
  k ← head g;
  lights c !! k.

(** The ticks of one turn: the gated ticks, then one cycle of the active
    lane's light. *)
Definition turn_ticks (c : IntersectionController) : nat :=
  (gate_ticks c
   + from_option (λ l, cycle_ticks (signal_phase l)) 0 (active_light c))%nat.

(** The state in which a turn ends when every light is back where it
    started: the next group is active and the clearance counter is
    armed. *)
Definition next_turn (c : IntersectionController) : IntersectionController :=
  advanced c (lights c).

Fixpoint turns (m : nat) (c : IntersectionController)
    : IntersectionController :=
  match m with
  | O => c
  | S m' => turns m' (next_turn c)
  end.

Fixpoint turns_ticks (m : nat) (c : IntersectionController) : nat :=
  match m with
  | O => 0%nat
  | S m' => (turn_ticks c + turns_ticks m' (next_turn c))%nat
  end.

(** Between two turns: the invariant holds and every light is as
    [add_light] made it. *)
Record Resting (c : IntersectionController) : Prop := {
  rest_inv : Inv c;
  rest_fresh : ∀ k l, lights c !! k = Some l →
    ∃ g y, l = TrafficLight_init (SignalPhase_init g y)
}.

(** The ticks of one cycle of the light of a group's first lane. *)
Definition group_cycle (c : IntersectionController) (g : PhaseGroup) : nat :=
  from_option (λ l, cycle_ticks (signal_phase l)) 0%nat
    (k ← head g; lights c !! k).

(** The sum of [f] over [m] consecutive indices from [s], taken modulo
    [n]. *)
Fixpoint cyc_sum (f : nat → nat) (n s m : nat) : nat :=
  match m with
  | O => 0%nat
  | S m' => (f (s `mod` n) + cyc_sum f n (S s) m')%nat
  end.

(** Every registered light is RED with timer 0. *)
Definition all_red (c : IntersectionController) : Prop :=
  ∀ k l, lights c !! k = Some l → state l = RED ∧ timer l = 0.

(** ** The status line *)

(** The string stored in [TrafficLight.state]. *)
Definition state_name (s : Color) : string :=
  match s with
  | RED => "RED"
  | GREEN => "GREEN"
  | YELLOW => "YELLOW"
  end.

(** [format(n, "02")]: the decimal digits of [n], with a minus sign if
    negative, padded with a zero to at least two characters. *)
Definition fmt02 (n : Z) : string :=
  let d := pretty n in
  if (String.length d <? 2)%nat then "0" +:+ d else d.

(** [s[-1:]] *)
Fixpoint last_char (s : string) : string :=
  match s with
  | EmptyString => EmptyString
  | String a s' =>
      match s' with
      | EmptyString => String a EmptyString
      | String _ _ => last_char s'
      end
  end.

(** The first f-string of [print_status]. *)
Definition status_header (t : Z) : string :=
  "[" +:+ fmt02 (t `div` 60) +:+ ":" +:+ fmt02 (t `mod` 60) +:+ "]:".

(** What one lane contributes to the line, after the separator. *)
Definition status_entry (key : LaneKey) (l : TrafficLight) : string :=
  " " +:+ key.1 +:+ " "
  +:+ (if decide (key.2 = "through") then "through lanes" else "Left-turn")
  +:+ ": " +:+ state_name (state l)
  +:+ " (" +:+ pretty (timer l) +:+ "s)".

(** [sorted(self.lights, reverse=True)] *)
Definition status_keys (c : IntersectionController) : list LaneKey :=
  sort_desc_by key_ltb (map_to_list (lights c)).*1.

(** The [for key in sorted(...)] loop of [print_status]. *)
Fixpoint status_loop (ls : gmap LaneKey TrafficLight) (keys : list LaneKey)
    (status_display : string) : result string :=
  match keys with
  | [] => Ok status_display
  | key :: rest =>
      match ls !! key with
      | None => Raise KeyError
      | Some l =>
          status_loop ls rest
            (status_display
             +:+ (if decide (last_char status_display ≠ ":")
                  then "," else "")
             +:+ status_entry key l)
      end
  end.

(** [IntersectionController.print_status]: the line handed to [print]. *)
Definition print_status (c : IntersectionController) : result string :=
  status_loop (lights c) (status_keys c) (status_header (ctimer c)).

(** Two decimal digits. *)
Definition two_digits (n : Z) : string :=
  String (Ascii.ascii_of_N (Z.to_N (48 + n `div` 10)))
    (String (Ascii.ascii_of_N (Z.to_N (48 + n `mod` 10))) EmptyString).

(** ** The driver *)

(** The controller with its display counter set to [t]. *)
Definition set_ctimer (t : Z) (c : IntersectionController)
    : IntersectionController :=
  {| all_red_time := all_red_time c;
     time_in_all_red := time_in_all_red c;
     ctimer := t;
     lights := lights c;
     current_group := current_group c;
     current_group_phase := current_group_phase c |}.

(** The [for _ in range(run_time)] loop of [simulate]: tick, print the
    status, advance the display counter.  The result carries the lines
    printed; the pause between iterations has no effect on the state. *)
Fixpoint drive (n : nat) (c : IntersectionController)
    : result (IntersectionController * list string) :=
  match n with
  | O => Ok (c, [])
  | S n' =>
      c1 ← update c;
      line ← print_status c1;
      r ← drive n' (update_timer c1);
      Ok (r.1, line :: r.2)
  end.

(** The two messages of the configuration loop. *)
Definition lane_added_message : string :=
  "----------Lane added successfully----------"
  +:+ String (Ascii.ascii_of_N 10) EmptyString.

Definition invalid_input_message : string :=
  "Invalid input. Please try again.".

(** The [while True] loop of [simulate], reading from the lines still to
    come on standard input.  It returns the controller, the unread lines
    and the arguments of the [print] calls; [None] stands for the
    [EOFError] that [input] raises when no line is left. *)
Fixpoint configure (phase_through phase_left : SignalPhase)
    (inputs : list string) (c : IntersectionController) (out : list string)
    : option (IntersectionController * list string * list string) :=
  match inputs with
  | [] => None
  | flag :: rest =>
      if decide (flag = "n") then Some (c, rest, out)
      else if decide (flag = "y") then
        match rest with
        | direction :: lane_type :: rest' =>
            configure phase_through phase_left rest'
              (add_light c direction lane_type
                 (if decide (lane_type = "through")
                  then phase_through else phase_left))
              (out ++ [lane_added_message])
        | _ => None
        end
      else
        configure phase_through phase_left rest c
          (out ++ [invalid_input_message])
  end.

(** How a call of [simulate] ends. *)
Inductive sim_result : Type :=
  | Finished (c : IntersectionController) (out : list string)
  | EndOfInput
  | Raised (e : exn).

(** [IntersectionController.simulate(run_time)] from the point where the
    four durations have been read: [tg], [ty], [lg], [ly] are the values
    of the four [int(input(...))] calls and [inputs] the lines that
    follow them. *)
Definition simulate (c : IntersectionController) (tg ty lg ly : Z)
    (inputs : list string) (run_time : Z) : sim_result :=
  let phase_through := SignalPhase_init tg ty in
  let phase_left := SignalPhase_init lg ly in
  match configure phase_through phase_left inputs c [] with
  | None => EndOfInput
  | Some (c1, _, out1) =>
      match drive (Z.to_nat run_time) (sort_lights c1) with
      | Ok (c2, out2) => Finished c2 (out1 ++ out2)
      | Raise e => Raised e
      end
  end.

(** A step of a configuration dialogue: a lane is entered, or a line
    that is neither "y" nor "n" is typed at the prompt. *)
Inductive dialogue_step : Type :=
  | EnterLane (direction lane_type : string)
  | Mistype (line : string).

Definition step_lines (s : dialogue_step) : list string :=
  match s with
  | EnterLane d t => ["y"; d; t]
  | Mistype line => [line]
  end.

Definition step_message (s : dialogue_step) : string :=
  match s with
  | EnterLane _ _ => lane_added_message
  | Mistype _ => invalid_input_message
  end.

Definition step_ok (s : dialogue_step) : Prop :=
  match s with
  | EnterLane _ _ => True
  | Mistype line => line ≠ "y" ∧ line ≠ "n"
  end.

(** The lanes a dialogue registers, with the durations their lane type
    selects. *)
Definition step_lanes (tg ty lg ly : Z) (s : dialogue_step) : list LaneSpec :=
  match s with
  | EnterLane d t =>
      [((d, t), if decide (t = "through") then (tg, ty) else (lg, ly))]
  | Mistype _ => []
  end.

(** The effect of a dialogue step on the controller. *)
Definition step_apply (phase_through phase_left : SignalPhase)
    (c : IntersectionController) (s : dialogue_step) : IntersectionController :=
  match s with
  | EnterLane d t =>
      add_light c d t
        (if decide (t = "through") then phase_through else phase_left)
  | Mistype _ => c
  end.

(** * Auxiliary facts *)

(** ** The signal head *)

Section TrafficLight_facts.

Implicit Types (l : TrafficLight) (p : SignalPhase).

Lemma update_phase l :
  signal_phase (TrafficLight_update l) = signal_phase l.
Proof.
  unfold TrafficLight_update, advance_state; simpl.
  destruct (timer l - 1 <? 0); [destruct (state l)|]; reflexivity.
Qed.

Lemma update_hold l :
  0 ≤ timer l - 1 →
  TrafficLight_update l =
    {| signal_phase := signal_phase l; state := state l;
       timer := timer l - 1 |}.
Proof.
  intros H. unfold TrafficLight_update; simpl.
  destruct (Z.ltb_spec (timer l - 1) 0); [lia | reflexivity].
Qed.

Lemma update_expire l :
  timer l - 1 < 0 →
  TrafficLight_update l =
    {| signal_phase := signal_phase l; state := next_state (state l);
       timer := duration (signal_phase l) (next_state (state l)) |}.
Proof.
  intros H. unfold TrafficLight_update, advance_state; simpl.
  destruct (Z.ltb_spec (timer l - 1) 0); [| lia].
  destruct (state l); reflexivity.
Qed.

Lemma force_red_phase l : signal_phase (force_red l) = signal_phase l.
Proof. unfold force_red. case_decide; reflexivity. Qed.

Lemma force_red_timer l : timer (force_red l) = timer l.
Proof. unfold force_red. case_decide; reflexivity. Qed.

Lemma force_red_state l : state (force_red l) = RED.
Proof.
  unfold force_red. case_decide as H; [reflexivity|].
  destruct (state l); naive_solver.
Qed.

Lemma force_red_id l : state l = RED → force_red l = l.
Proof. intros H. unfold force_red. case_decide; [congruence | reflexivity]. Qed.

Lemma light_reachable_phase p l : light_reachable p l → signal_phase l = p.
Proof.
  induction 1 as [| l _ IH | l _ IH]; [reflexivity | |].
  - rewrite update_phase. exact IH.
  - rewrite force_red_phase. exact IH.
Qed.

Lemma ticks_S n l : ticks (S n) l = TrafficLight_update (ticks n l).
Proof. reflexivity. Qed.

Lemma ticks_add n m l : ticks (n + m) l = ticks n (ticks m l).
Proof. unfold ticks. apply Nat.iter_add. Qed.

(** While the timer lasts, [n] ticks only count it down. *)
Lemma ticks_countdown n l :
  Z.of_nat n ≤ timer l →
  ticks n l =
    {| signal_phase := signal_phase l; state := state l;
       timer := timer l - Z.of_nat n |}.
Proof.
  induction n as [| n IH]; intros Hn.
  - simpl. destruct l; simpl. f_equal. lia.
  - rewrite ticks_S, IH by lia.
    rewrite update_hold by (simpl; lia). simpl. f_equal. lia.
Qed.

(** A state entered with a non-negative duration [d] is left by the
    tick number [d + 1]. *)
Lemma ticks_through n l :
  Z.of_nat n = timer l →
  ticks (S n) l =
    {| signal_phase := signal_phase l; state := next_state (state l);
       timer := duration (signal_phase l) (next_state (state l)) |}.
Proof.
  intros Hn. rewrite ticks_S, ticks_countdown by lia.
  rewrite update_expire by (simpl; lia). reflexivity.
Qed.

End TrafficLight_facts.

Section Controller_facts.

Implicit Types (c : IntersectionController) (g : PhaseGroup) (k : LaneKey).
Implicit Types (ls : gmap LaneKey TrafficLight) (l : TrafficLight).

Lemma red_zero_spec l : red_zero l = true ↔ state l = RED ∧ timer l = 0.
Proof.
  unfold red_zero. rewrite andb_true_iff, bool_decide_eq_true, Z.eqb_eq.
  reflexivity.
Qed.

Lemma group_complete_spec ls g :
  group_complete ls g = true ↔
  ∀ k, k ∈ g → ∃ l, ls !! k = Some l ∧ state l = RED ∧ timer l = 0.
Proof.
  unfold group_complete. rewrite forallb_forall. split.
  - intros H k Hk. apply list_elem_of_In, H in Hk.
    destruct (ls !! k) as [l|]; [|discriminate].
    exists l. split; [reflexivity|]. by apply red_zero_spec.
  - intros H k Hk. apply list_elem_of_In, H in Hk.
    destruct Hk as (l & -> & Hl). by apply red_zero_spec.
Qed.

Lemma group_complete_single ls k :
  group_complete ls [k] =
    match ls !! k with Some l => red_zero l | None => false end.
Proof. unfold group_complete; simpl. apply andb_true_r. Qed.

Lemma dispatched_lookup c g k :
  dispatched c g !! k =
    (λ l, if key_in k g then TrafficLight_update l else force_red l)
      <$> lights c !! k.
Proof.
  unfold dispatched. rewrite map_lookup_imap.
  destruct (lights c !! k); reflexivity.
Qed.

Lemma dispatched_is_Some c g k :
  is_Some (dispatched c g !! k) ↔ is_Some (lights c !! k).
Proof. rewrite dispatched_lookup. apply fmap_is_Some. Qed.

(** On single-lane groups whose lanes are registered, the generator
    never raises and [all] is the conjunction over the groups. *)
Lemma all_red_zero_singletons ls (groups : list PhaseGroup) :
  (∀ g, g ∈ groups → ∃ k, g = [k] ∧ is_Some (ls !! k)) →
  all_red_zero ls groups = Ok (forallb (group_complete ls) groups).
Proof.
  induction groups as [| g rest IH]; intros H; [reflexivity|].
  destruct (H g) as (k & -> & [l Hl]); [left|].
  cbn [all_red_zero forallb]. rewrite group_complete_single, Hl.
  fold (red_zero l). destruct (red_zero l); cbn [andb]; [|reflexivity].
  apply IH. intros g' Hg'. apply H. by right.
Qed.

Lemma mod_succ_lt (i n : nat) : (0 < n)%nat → ((i + 1) `mod` n < n)%nat.
Proof. intros H. apply Nat.mod_upper_bound. lia. Qed.

Lemma Inv_active c :
  Inv c → ∃ k, current_group_phase c !! current_group c = Some [k]
               ∧ is_Some (lights c !! k).
Proof.
  intros HI. destruct (lookup_lt_is_Some_2 _ _ (inv_index c HI)) as [g Hg].
  destruct (inv_groups c HI g) as (k & -> & Hk).
  - eapply list_elem_of_lookup_2, Hg.
  - eauto.
Qed.

(** The dispatch succeeds whenever the active index is in range. *)
Lemma dispatch_active c g :
  current_group_phase c !! current_group c = Some g →
  dispatch c = Ok (dispatched c g).
Proof.
  intros Hg. unfold dispatch. rewrite Hg. case_decide as He; [|reflexivity].
  unfold dispatched. rewrite He. by rewrite map_imap_empty.
Qed.

(** A light outside the active group is not altered by the dispatch. *)
Lemma Inv_dispatched_idle c g k l :
  Inv c → current_group_phase c !! current_group c = Some g →
  lights c !! k = Some l → k ∉ g →
  dispatched c g !! k = Some l.
Proof.
  intros HI Hg Hl Hk. rewrite dispatched_lookup, Hl. simpl.
  unfold key_in. rewrite bool_decide_eq_false_2 by exact Hk.
  rewrite force_red_id; [reflexivity|].
  by destruct (inv_idle c HI g k l).
Qed.

(** The check over the first key of every group agrees with the check
    over the active group alone. *)
Lemma Inv_check_active c g :
  Inv c → current_group_phase c !! current_group c = Some g →
  forallb (group_complete (dispatched c g)) (current_group_phase c)
  = group_complete (dispatched c g) g.
Proof.
  intros HI Hg.
  destruct (group_complete (dispatched c g) g) eqn:Hc.
  - apply forallb_forall. intros g' Hg'%list_elem_of_In.
    destruct (inv_groups c HI g' Hg') as (k' & -> & [l' Hl']).
    destruct (decide (k' ∈ g)) as [Hin | Hout].
    + destruct (inv_groups c HI g) as (k & -> & _).
      { eapply list_elem_of_lookup_2, Hg. }
      apply list_elem_of_singleton in Hin. subst k'. exact Hc.
    + rewrite group_complete_single.
      rewrite (Inv_dispatched_idle c g k' l' HI Hg Hl' Hout).
      apply red_zero_spec. by apply (inv_idle c HI g k' l').
  - apply not_true_is_false. intros Hall.
    rewrite forallb_forall in Hall.
    rewrite Hall in Hc; [discriminate|].
    apply list_elem_of_In. eapply list_elem_of_lookup_2, Hg.
Qed.

(** The outcome of one tick in a state satisfying the invariant. *)
Lemma Inv_update c g :
  Inv c → current_group_phase c !! current_group c = Some g →
  update c =
    Ok (if 1 <? time_in_all_red c then gated c
        else if group_complete (dispatched c g) g
             then advanced c (dispatched c g)
             else stayed c (dispatched c g)).
Proof.
  intros HI Hg. unfold update.
  destruct (1 <? time_in_all_red c); [reflexivity|].
  rewrite (dispatch_active c g Hg). simpl.
  rewrite all_red_zero_singletons.
  - rewrite (Inv_check_active c g HI Hg). simpl.
    destruct (group_complete (dispatched c g) g); [|reflexivity].
    case_decide as Hlen; [|reflexivity].
    pose proof (inv_index c HI). lia.
  - intros g' Hg'. destruct (inv_groups c HI g' Hg') as (k & -> & Hk).
    exists k. split; [reflexivity|]. by apply dispatched_is_Some.
Qed.

End Controller_facts.

Section Construction_facts.

Implicit Types (c : IntersectionController) (s : LaneSpec).

Lemma build_snoc art lanes s :
  build art (lanes ++ [s]) = add_lane (build art lanes) s.
Proof. unfold build. rewrite foldl_app. reflexivity. Qed.

Lemma add_lane_fresh c s : Fresh c → Fresh (add_lane c s).
Proof.
  intros [Hc Hi Hg Hr]. destruct s as [[d t] [gr ye]].
  split; simpl; try assumption.
  - intros g. rewrite elem_of_app, list_elem_of_singleton, Hg. split.
    + intros [(k & -> & Hk) | ->].
      * exists k. split; [reflexivity|].
        apply lookup_insert_is_Some.
        destruct (decide ((d, t) = k)); [by left | by right].
      * exists (d, t). split; [reflexivity|].
        rewrite lookup_insert_eq. eauto.
    + intros (k & -> & Hk). apply lookup_insert_is_Some in Hk.
      destruct Hk as [<- | [_ Hk]]; [by right | left; eauto].
  - intros k l. rewrite lookup_insert. case_decide.
    + intros [= <-]. split; reflexivity.
    + apply Hr.
Qed.

Lemma build_fresh art lanes : Fresh (build art lanes).
Proof.
  induction lanes as [| s lanes IH] using rev_ind.
  - split; simpl; try reflexivity.
    + intros g. split; [by intros ?%elem_of_nil|].
      intros (k & _ & [l Hl]). by rewrite lookup_empty in Hl.
    + intros k l. by rewrite lookup_empty.
  - rewrite build_snoc. by apply add_lane_fresh.
Qed.

Lemma build_length art lanes :
  length (current_group_phase (build art lanes)) = length lanes.
Proof.
  induction lanes as [| s lanes IH] using rev_ind; [reflexivity|].
  rewrite build_snoc; simpl. rewrite !length_app, IH. reflexivity.
Qed.

Lemma build_all_red_time art lanes : all_red_time (build art lanes) = art.
Proof.
  induction lanes as [| s lanes IH] using rev_ind; [reflexivity|].
  rewrite build_snoc. exact IH.
Qed.

Lemma insert_desc_perm x (l : list PhaseGroup) : insert_desc x l ≡ₚ x :: l.
Proof.
  induction l as [| y l IH]; simpl; [reflexivity|].
  destruct (group_ltb x y); [|reflexivity].
  rewrite IH. apply Permutation_swap.
Qed.

(** Sorting only reorders the groups. *)
Lemma sort_desc_perm (l : list PhaseGroup) : sort_desc l ≡ₚ l.
Proof.
  induction l as [| x l IH]; simpl; [reflexivity|].
  rewrite insert_desc_perm. by apply Permutation_skip.
Qed.

Lemma sort_lights_fresh c : Fresh c → Fresh (sort_lights c).
Proof.
  intros [Hc Hi Hg Hr]. split; simpl; try assumption.
  intros g. rewrite sort_desc_perm. apply Hg.
Qed.

(** A fresh controller with at least one lane satisfies the invariant,
    sorted or not. *)
Lemma Fresh_Inv c : Fresh c → current_group_phase c ≠ [] → Inv c.
Proof.
  intros [Hc Hi Hg Hr] Hne. split.
  - intros g. apply Hg.
  - intros k Hk. apply Hg. eauto.
  - rewrite Hi. destruct (current_group_phase c); [done | simpl; lia].
  - intros g k l _ Hl _. by apply (Hr k).
Qed.

Lemma build_nonempty art s lanes :
  current_group_phase (build art (s :: lanes)) ≠ [].
Proof.
  intros H. apply (f_equal length) in H.
  rewrite build_length in H. discriminate.
Qed.

Lemma Inv_build art s lanes : Inv (build art (s :: lanes)).
Proof. apply Fresh_Inv; [apply build_fresh | apply build_nonempty]. Qed.

Lemma Inv_start art s lanes : Inv (sort_lights (build art (s :: lanes))).
Proof.
  apply Fresh_Inv; [apply sort_lights_fresh, build_fresh|].
  simpl. intros H. apply (build_nonempty art s lanes).
  apply Permutation_nil_r. rewrite <- H. symmetry. apply sort_desc_perm.
Qed.

End Construction_facts.

(** ** Preservation of the invariant *)

Section Invariant_facts.

Implicit Types (c : IntersectionController) (g : PhaseGroup) (k : LaneKey).

(** When the active group completes, every registered light is RED at
    timer 0. *)
Lemma Inv_complete_all_red c g k l :
  Inv c → current_group_phase c !! current_group c = Some g →
  group_complete (dispatched c g) g = true →
  dispatched c g !! k = Some l → state l = RED ∧ timer l = 0.
Proof.
  intros HI Hg Hc Hl.
  rewrite <- (Inv_check_active c g HI Hg), forallb_forall in Hc.
  assert (Hk : [k] ∈ current_group_phase c).
  { apply (inv_lights c HI). apply (dispatched_is_Some c g). eauto. }
  apply list_elem_of_In, Hc in Hk.
  rewrite group_complete_single, Hl in Hk. by apply red_zero_spec.
Qed.

Lemma Inv_gated c : Inv c → Inv (gated c).
Proof. intros [H1 H2 H3 H4]. split; assumption. Qed.

Lemma Inv_advanced c g :
  Inv c → current_group_phase c !! current_group c = Some g →
  group_complete (dispatched c g) g = true →
  Inv (advanced c (dispatched c g)).
Proof.
  intros HI Hg Hc. split; simpl.
  - intros g' Hg'. destruct (inv_groups c HI g' Hg') as (k & -> & Hk).
    exists k. split; [reflexivity|]. by apply dispatched_is_Some.
  - intros k Hk. apply (inv_lights c HI). by apply (dispatched_is_Some c g).
  - apply mod_succ_lt. pose proof (inv_index c HI). lia.
  - intros g' k l _ Hl _. by apply (Inv_complete_all_red c g k l).
Qed.

Lemma Inv_stayed c g :
  Inv c → current_group_phase c !! current_group c = Some g →
  Inv (stayed c (dispatched c g)).
Proof.
  intros HI Hg. split; simpl.
  - intros g' Hg'. destruct (inv_groups c HI g' Hg') as (k & -> & Hk).
    exists k. split; [reflexivity|]. by apply dispatched_is_Some.
  - intros k Hk. apply (inv_lights c HI). by apply (dispatched_is_Some c g).
  - apply (inv_index c HI).
  - intros g' k l Hg' Hl Hk. assert (g' = g) as -> by congruence.
    assert (is_Some (lights c !! k)) as [l0 Hl0].
    { apply (dispatched_is_Some c g). eauto. }
    rewrite (Inv_dispatched_idle c g k l0 HI Hg Hl0 Hk) in Hl.
    injection Hl as <-. by apply (inv_idle c HI g k l0).
Qed.

Lemma Inv_step c c' : Inv c → update c = Ok c' → Inv c'.
Proof.
  intros HI Hu. destruct (Inv_active c HI) as (k & Hg & _).
  rewrite (Inv_update c [k] HI Hg) in Hu.
  destruct (1 <? time_in_all_red c).
  { injection Hu as <-. by apply Inv_gated. }
  destruct (group_complete (dispatched c [k]) [k]) eqn:Hc;
    injection Hu as <-.
  - by apply Inv_advanced.
  - by apply Inv_stayed.
Qed.

Lemma reachable_Inv c : reachable c → Inv c.
Proof.
  induction 1 as [art s lanes | c c' _ IH Hu].
  - apply Inv_start.
  - by apply (Inv_step c c').
Qed.

(** A tick never raises in a state satisfying the invariant. *)
Lemma Inv_update_Ok c : Inv c → ∃ c', update c = Ok c' ∧ Inv c'.
Proof.
  intros HI. destruct (Inv_active c HI) as (k & Hg & _).
  pose proof (Inv_update c [k] HI Hg) as Hu.
  eexists. split; [exact Hu|]. by apply (Inv_step c).
Qed.

Lemma Inv_run c n : Inv c → ∃ c', run n c = Ok c' ∧ Inv c'.
Proof.
  revert c. induction n as [| n IH]; intros c HI; [by exists c|].
  destruct (Inv_update_Ok c HI) as (c1 & H1 & HI1).
  destruct (IH c1 HI1) as (c' & Hr & HI').
  exists c'. split; [|assumption]. simpl. rewrite H1. exact Hr.
Qed.

Lemma reachable_run c n c' : reachable c → run n c = Ok c' → reachable c'.
Proof.
  revert c. induction n as [| n IH]; intros c Hc; simpl.
  - by intros [= <-].
  - destruct (update c) as [c1|] eqn:H1; [|discriminate]. simpl.
    apply IH. by apply (reach_update c).
Qed.

Lemma run_snoc n c : run (S n) c = (c' ← run n c; update c').
Proof.
  revert c. induction n as [| n IH]; intros c.
  - simpl. by destruct (update c).
  - change (run (S (S n)) c) with (c1 ← update c; run (S n) c1).
    change (run (S n) c) with (c1 ← update c; run n c1).
    destruct (update c) as [c1|]; simpl; [apply IH | reflexivity].
Qed.

(** The gate: with more than one second of all-red left, a tick only
    counts down. *)
Lemma update_gate c : 1 < time_in_all_red c → update c = Ok (gated c).
Proof.
  intros H. unfold update.
  destruct (Z.ltb_spec 1 (time_in_all_red c)); [reflexivity | lia].
Qed.

Lemma update_groups c c' :
  update c = Ok c' → current_group_phase c' = current_group_phase c.
Proof.
  unfold update. destruct (1 <? time_in_all_red c); [by intros [= <-]|].
  destruct (dispatch c) as [ls|]; [|discriminate]. simpl.
  destruct (all_red_zero ls (current_group_phase c)) as [[]|];
    simpl; [| by intros [= <-] | discriminate].
  case_decide; [discriminate | by intros [= <-]].
Qed.

End Invariant_facts.

(** * Properties of the signal head *)

(** C3 — tick semantics.  One call of [TrafficLight.update] keeps the phase
    and decrements the timer; if the decremented timer is negative, the
    light moves to the cyclic successor of its state (RED → GREEN → YELLOW
    → RED) and the timer is reset to the duration configured for the state
    entered; if the decremented timer is at least 0, the state is kept and
    the timer is the decremented value. *)
Theorem TrafficLight_update_semantics (l : TrafficLight) :
  signal_phase (TrafficLight_update l) = signal_phase l
  ∧ (timer l - 1 < 0 →
       state (TrafficLight_update l) = next_state (state l)
       ∧ timer (TrafficLight_update l)
         = duration (signal_phase l) (next_state (state l)))
  ∧ (0 ≤ timer l - 1 →
       state (TrafficLight_update l) = state l
       ∧ timer (TrafficLight_update l) = timer l - 1).
Proof.
  split; [apply update_phase|]. split; intros H.
  - rewrite update_expire by exact H. split; reflexivity.
  - rewrite update_hold by exact H. split; reflexivity.
Qed.

Lemma TrafficLight_update_semantics_witness :
  let l := {| signal_phase := SignalPhase_init 3 2; state := GREEN;
              timer := 0 |} in
  let l' := {| signal_phase := SignalPhase_init 3 2; state := YELLOW;
               timer := 2 |} in
  (state (TrafficLight_update l) = YELLOW
   ∧ timer (TrafficLight_update l) = 2)
  ∧ (state (TrafficLight_update l') = YELLOW
     ∧ timer (TrafficLight_update l') = 1).
Proof.
  intros l l'. split.
  - apply (TrafficLight_update_semantics l). simpl. lia.
  - apply (TrafficLight_update_semantics l'). simpl. lia.
Defined.

(** A full cycle from a freshly constructed light returns the very same
    light. *)
Lemma cycle_returns_init g y :
  0 ≤ g → 0 ≤ y →
  ticks (Z.to_nat (1 + g + 1 + y + 1)) (TrafficLight_init (SignalPhase_init g y))
  = TrafficLight_init (SignalPhase_init g y).
Proof.
  intros Hg Hy.
  replace (Z.to_nat (1 + g + 1 + y + 1))
    with (S (Z.to_nat y) + (S (Z.to_nat g) + 1))%nat by lia.
  rewrite !ticks_add.
  rewrite (ticks_through 0) by reflexivity. simpl signal_phase.
  rewrite (ticks_through (Z.to_nat g)) by (simpl; lia).
  rewrite (ticks_through (Z.to_nat y)) by (simpl; lia).
  reflexivity.
Qed.

(** C5 — cycle closure.  With non-negative green and yellow durations
    [g] and [y], a light that starts in RED and is ticked exactly
    [1 + g + 1 + y + 1] times is in RED again, with the timer value it had
    when it last entered RED. *)
Theorem cycle_closure (g y : Z) :
  0 ≤ g → 0 ≤ y →
  let l0 := TrafficLight_init (SignalPhase_init g y) in
  let l1 := ticks (Z.to_nat (1 + g + 1 + y + 1)) l0 in
  state l0 = RED ∧ state l1 = RED ∧ timer l1 = timer l0.
Proof.
  intros Hg Hy l0 l1. subst l0 l1.
  rewrite cycle_returns_init by assumption. repeat split.
Qed.

Lemma cycle_closure_witness :
  let l0 := TrafficLight_init (SignalPhase_init 3 2) in
  state l0 = RED ∧ state (ticks 8 l0) = RED ∧ timer (ticks 8 l0) = timer l0.
Proof. apply (cycle_closure 3 2); lia. Defined.

(** C6 — non-negative timer.  For a phase whose durations are all
    non-negative, every light state that can arise (fresh, ticked, or
    forced to red) has a timer of at least 0 once a tick returns: the
    value -1 produced by the decrement is overwritten before the call
    ends. *)
Theorem timer_nonneg_after_tick (p : SignalPhase) (l : TrafficLight) :
  phase_nonneg p → light_reachable p l →
  0 ≤ timer (TrafficLight_update l).
Proof.
  intros (Hg & Hy & Hr) Hl. apply light_reachable_phase in Hl.
  destruct (Z.lt_ge_cases (timer l - 1) 0) as [Hneg | Hpos].
  - rewrite update_expire by exact Hneg. simpl. rewrite Hl.
    destruct (state l); simpl; assumption.
  - rewrite update_hold by exact Hpos. simpl. exact Hpos.
Qed.

Lemma timer_nonneg_after_tick_witness :
  0 ≤ timer (TrafficLight_update
               (TrafficLight_update (TrafficLight_init (SignalPhase_init 0 0)))).
Proof.
  apply (timer_nonneg_after_tick (SignalPhase_init 0 0)).
  - unfold phase_nonneg; simpl; lia.
  - apply lr_update, lr_init.
Defined.

(** The construction of a phase stores what it is given. *)
Lemma negative_phase_accepted :
  let p := SignalPhase_init (-1) (-2) in
  let l := TrafficLight_update (TrafficLight_init p) in
  green_time p = -1 ∧ yellow_time p = -2
  ∧ light_reachable p l ∧ state l = GREEN ∧ timer l = -1.
Proof.
  intros p l. repeat split. apply lr_update, lr_init.
Qed.

(** C8, as the code has it — no validation.  [SignalPhase_init] accepts
    any two integers and stores them as given, with a red duration of 0;
    the first tick of a light built on the phase loads the green duration,
    whatever its sign, into the timer. *)
Theorem SignalPhase_init_unchecked (g y : Z) :
  let p := SignalPhase_init g y in
  green_time p = g ∧ yellow_time p = y ∧ red_time p = 0
  ∧ TrafficLight_update (TrafficLight_init p)
    = {| signal_phase := p; state := GREEN; timer := g |}.
Proof. intros p. repeat split. Qed.

(** * Properties of the controller *)

(** C2 — mutual exclusion.  In every state of a run (lanes registered,
    groups sorted, any number of ticks) every lane outside the active group
    is RED, and any two groups that each hold a GREEN or YELLOW lane are
    the same group, namely the active one; when the groups are pairwise
    distinct they also sit at the same index. *)
Theorem mutual_exclusion (c : IntersectionController) :
  reachable c →
  ∃ active,
    current_group_phase c !! current_group c = Some active
    ∧ (∀ k l, lights c !! k = Some l → k ∉ active → state l = RED)
    ∧ (∀ i j g1 g2 k1 k2 l1 l2,
         current_group_phase c !! i = Some g1 →
         current_group_phase c !! j = Some g2 →
         k1 ∈ g1 → k2 ∈ g2 →
         lights c !! k1 = Some l1 → lights c !! k2 = Some l2 →
         state l1 = GREEN ∨ state l1 = YELLOW →
         state l2 = GREEN ∨ state l2 = YELLOW →
         g1 = active ∧ g2 = active
         ∧ (NoDup (current_group_phase c) → i = j)).
Proof.
  intros HI%reachable_Inv. destruct (Inv_active c HI) as (k & Hg & _).
  exists [k]. split; [exact Hg|].
  assert (Hidle : ∀ k' l, lights c !! k' = Some l → k' ∉ [k] → state l = RED).
  { intros k' l Hl Hk'. by destruct (inv_idle c HI [k] k' l). }
  split; [exact Hidle|].
  assert (Hone : ∀ i g k' l, current_group_phase c !! i = Some g → k' ∈ g →
            lights c !! k' = Some l → state l = GREEN ∨ state l = YELLOW →
            g = [k]).
  { intros i g k' l Hi Hk' Hl Hs.
    destruct (inv_groups c HI g) as (k0 & -> & _).
    { eapply list_elem_of_lookup_2, Hi. }
    apply list_elem_of_singleton in Hk'. subst k0.
    destruct (decide (k' ∈ [k])) as [Hin | Hout].
    - apply list_elem_of_singleton in Hin. by subst.
    - specialize (Hidle k' l Hl Hout). destruct Hs; congruence. }
  intros i j g1 g2 k1 k2 l1 l2 Hi Hj Hk1 Hk2 Hl1 Hl2 Hs1 Hs2.
  pose proof (Hone i g1 k1 l1 Hi Hk1 Hl1 Hs1) as ->.
  pose proof (Hone j g2 k2 l2 Hj Hk2 Hl2 Hs2) as ->.
  repeat split. intros Hnd. by apply (NoDup_lookup _ i j [k] Hnd).
Qed.

(** C10 — idle lights rest at RED 0.  In every state of a run, whatever
    the lane keys, each light outside the active group is RED with timer
    exactly 0; a tick that changes the active index leaves every registered
    light RED with timer 0; and on a tick that is not gated the check the
    code makes over the first key of every group returns what the check
    over the active group alone returns. *)
Theorem idle_lights_red_zero (c : IntersectionController) :
  reachable c →
  ∃ active,
    current_group_phase c !! current_group c = Some active
    ∧ (∀ k l, lights c !! k = Some l → k ∉ active →
         state l = RED ∧ timer l = 0)
    ∧ (∀ c', update c = Ok c' → current_group c' ≠ current_group c →
         ∀ k l, lights c' !! k = Some l → state l = RED ∧ timer l = 0)
    ∧ dispatch c = Ok (dispatched c active)
    ∧ all_red_zero (dispatched c active) (current_group_phase c)
      = Ok (group_complete (dispatched c active) active).
Proof.
  intros HI%reachable_Inv. destruct (Inv_active c HI) as (k & Hg & _).
  exists [k]. split; [exact Hg|]. split; [|split; [|split]].
  - intros k' l. by apply (inv_idle c HI).
  - intros c' Hu Hne k' l Hl.
    rewrite (Inv_update c [k] HI Hg) in Hu.
    destruct (1 <? time_in_all_red c).
    { injection Hu as <-. by destruct Hne. }
    destruct (group_complete (dispatched c [k]) [k]) eqn:Hc;
      injection Hu as <-.
    + by apply (Inv_complete_all_red c [k] k' l).
    + by destruct Hne.
  - by apply dispatch_active.
  - rewrite all_red_zero_singletons.
    + by rewrite (Inv_check_active c [k] HI Hg).
    + intros g' Hg'. destruct (inv_groups c HI g' Hg') as (k' & -> & Hk').
      exists k'. split; [reflexivity|]. by apply (dispatched_is_Some c [k]).
Qed.

(** C4 — completion check.  On a tick of a run that the clearance gate
    lets through, the lights become those of the dispatch; if every lane
    key of the active group then maps to a light that is RED with timer 0,
    the active index becomes [(index + 1) mod group count] and the
    clearance counter is set to [all_red_time]; otherwise both are left as
    they were.  Lanes are looked up under their full
    [(direction, lane_type)] key. *)
Theorem completion_check (c : IntersectionController) :
  reachable c → time_in_all_red c ≤ 1 →
  ∃ active c',
    current_group_phase c !! current_group c = Some active
    ∧ update c = Ok c'
    ∧ lights c' = dispatched c active
    ∧ current_group_phase c' = current_group_phase c
    ∧ if group_complete (lights c') active
      then current_group c'
           = ((current_group c + 1) `mod` length (current_group_phase c))%nat
           ∧ time_in_all_red c' = all_red_time c
      else current_group c' = current_group c
           ∧ time_in_all_red c' = time_in_all_red c.
Proof.
  intros HI%reachable_Inv Ht. destruct (Inv_active c HI) as (k & Hg & _).
  pose proof (Inv_update c [k] HI Hg) as Hu.
  destruct (Z.ltb_spec 1 (time_in_all_red c)); [lia|].
  exists [k]. destruct (group_complete (dispatched c [k]) [k]) eqn:Hc.
  - exists (advanced c (dispatched c [k])).
    repeat split; try assumption. cbn [lights advanced]. rewrite Hc. by split.
  - exists (stayed c (dispatched c [k])).
    repeat split; try assumption. cbn [lights stayed]. rewrite Hc. by split.
Qed.

(** C7 — the forced red only writes the state.  On a tick that reaches the
    dispatch, a light whose key is outside the active group keeps its phase
    and its timer and has state RED afterwards; if it was RED already it is
    the same light as before. *)
Theorem forced_red_frame (c c' : IntersectionController)
    (g : PhaseGroup) (k : LaneKey) (l : TrafficLight) :
  update c = Ok c' → time_in_all_red c ≤ 1 →
  current_group_phase c !! current_group c = Some g →
  k ∉ g → lights c !! k = Some l →
  lights c' !! k
  = Some {| signal_phase := signal_phase l; state := RED; timer := timer l |}
  ∧ (state l = RED → lights c' !! k = Some l).
Proof.
  intros Hu Ht Hg Hk Hl.
  assert (Hd : lights c' = dispatched c g).
  { unfold update in Hu.
    destruct (Z.ltb_spec 1 (time_in_all_red c)); [lia|].
    rewrite (dispatch_active c g) in Hu by exact Hg. simpl in Hu.
    destruct (all_red_zero (dispatched c g) (current_group_phase c))
      as [[]|]; simpl in Hu; [| by injection Hu as <- | discriminate].
    case_decide; [discriminate | by injection Hu as <-]. }
  assert (Hf : lights c' !! k = Some (force_red l)).
  { rewrite Hd, dispatched_lookup, Hl. simpl.
    unfold key_in. by rewrite bool_decide_eq_false_2. }
  split.
  - rewrite Hf. f_equal. unfold force_red. case_decide as Hs; [reflexivity|].
    destruct l as [p s t]; simpl in *. f_equal. by destruct s; naive_solver.
  - intros Hs. by rewrite Hf, force_red_id.
Qed.

Lemma reachable_after n c :
  reachable c → run n c = Ok (after n c) → reachable (after n c).
Proof. intros Hc Hr. exact (reachable_run c n _ Hc Hr). Defined.

Section Clearance_facts.

Implicit Types (c : IntersectionController).

Lemma counting_Inv c j : Inv c → Inv (counting c j).
Proof. intros [H1 H2 H3 H4]. split; assumption. Qed.

(** Ticks taken while the counter exceeds 1 only count down. *)
Lemma run_gate j c :
  Z.of_nat j < Z.max 1 (time_in_all_red c) → run j c = Ok (counting c j).
Proof.
  revert c. induction j as [| j IH]; intros c H.
  - simpl. f_equal. destruct c; unfold counting; simpl. f_equal. lia.
  - change (run (S j) c) with (c1 ← update c; run j c1).
    rewrite update_gate by lia. simpl.
    rewrite IH by (simpl; lia). f_equal.
    unfold counting, gated; simpl. f_equal. lia.
Qed.

Lemma completes_advanced c c' :
  Inv c → completes c c' →
  ∃ k, current_group_phase c !! current_group c = Some [k]
       ∧ group_complete (dispatched c [k]) [k] = true
       ∧ c' = advanced c (dispatched c [k]).
Proof.
  intros HI (Hu & Ht & g & Hg & Hc).
  destruct (Inv_active c HI) as (k & Hk & _).
  pose proof (eq_trans (eq_sym Hg) Hk) as [= ->]. exists k.
  rewrite (Inv_update c [k] HI Hk) in Hu.
  destruct (Z.ltb_spec 1 (time_in_all_red c)); [lia|].
  destruct (group_complete (dispatched c [k]) [k]) eqn:Hd;
    injection Hu as <-; [done|].
  cbn [lights stayed] in Hc. congruence.
Qed.

(** The first tick that passes the gate in an all-red state turns the
    active lane green. *)
Lemma Inv_resume c k :
  Inv c → time_in_all_red c ≤ 1 →
  current_group_phase c !! current_group c = Some [k] →
  (∀ k' l, lights c !! k' = Some l → state l = RED ∧ timer l = 0) →
  ∃ c' l, update c = Ok c' ∧ lights c' !! k = Some l ∧ state l = GREEN.
Proof.
  intros HI Ht Hg Hred.
  destruct (Inv_active c HI) as (k0 & Hg0 & [l0 Hl0]).
  assert (k0 = k) as -> by congruence.
  destruct (Hred k l0 Hl0) as [Hs H0].
  assert (Hd : dispatched c [k] !! k = Some (TrafficLight_update l0)).
  { rewrite dispatched_lookup, Hl0. simpl. unfold key_in.
    rewrite bool_decide_eq_true_2; [reflexivity | by left]. }
  assert (Hst : state (TrafficLight_update l0) = GREEN).
  { rewrite update_expire by lia. simpl. by rewrite Hs. }
  exists (stayed c (dispatched c [k])), (TrafficLight_update l0).
  split; [|by split].
  rewrite (Inv_update c [k] HI Hg).
  destruct (Z.ltb_spec 1 (time_in_all_red c)); [lia|].
  rewrite group_complete_single, Hd. unfold red_zero. rewrite Hst.
  reflexivity.
Qed.

End Clearance_facts.

(** The full-duration reading fails.  With one lane (green 3, yellow 2)
    and an all-red time of 4, the group completes on tick 8; ticks 9, 10 and 11 are gated, and tick 12 already
    turns the lane GREEN: the lights are frozen for 3 ticks, not 4. *)
Lemma clearance_one_tick_short :
  reachable (after 7 single_lane)
  ∧ completes (after 7 single_lane) (after 8 single_lane)
  ∧ all_red_time (after 7 single_lane) = 4
  ∧ frozen_for 3 (after 8 single_lane)
  ∧ (state <$> lights (after 12 single_lane) !! ("NS", "through")
     = Some GREEN)
  ∧ ¬ clearance_as_stated.
Proof.
  assert (Hr : reachable (after 7 single_lane)).
  { apply reachable_after; [apply reach_start | by vm_compute]. }
  assert (Hc : completes (after 7 single_lane) (after 8 single_lane)).
  { split; [by vm_compute|]. split; [by vm_compute|].
    exists [("NS", "through")]. split; by vm_compute. }
  split; [exact Hr|]. split; [exact Hc|]. split; [reflexivity|].
  split; [|split].
  - intros j Hj. exists (after (8 + j) single_lane).
    destruct j as [|[|[|[|j]]]]; [by vm_compute.. | lia].
  - by vm_compute.
  - intros H. destruct (H _ _ Hr Hc 4%nat) as (c4 & H4 & Hl); [by vm_compute|].
    vm_compute in H4. injection H4 as <-.
    apply (f_equal (λ m, state <$> m !! ("NS", "through"))) in Hl.
    vm_compute in Hl. discriminate.
Qed.

(** C1, as the code has it — the clearance window.  When a tick of a run
    completes the active group, every registered light is RED with timer
    0, and the next [all_red_time - 1] ticks (none if [all_red_time] is at
    most 1) succeed and leave every light unchanged.  The tick after that
    window, number [max 1 all_red_time] since the completion, turns the
    lane of the newly active group GREEN.  In any state, while the
    clearance counter exceeds 1, a tick only decrements the counter. *)
Theorem clearance_window (c c' : IntersectionController) :
  reachable c → completes c c' →
  (∀ k l, lights c' !! k = Some l → state l = RED ∧ timer l = 0)
  ∧ frozen_for (Z.to_nat (all_red_time c) - 1) c'
  ∧ (∃ k cw l,
       current_group_phase c' !! current_group c' = Some [k]
       ∧ run (Z.to_nat (Z.max 1 (all_red_time c))) c' = Ok cw
       ∧ lights cw !! k = Some l ∧ state l = GREEN)
  ∧ (∀ c0, 1 < time_in_all_red c0 → update c0 = Ok (gated c0)).
Proof.
  intros HI%reachable_Inv Hc.
  destruct (completes_advanced c c' HI Hc) as (k & Hg & Hd & ->).
  pose proof (Inv_advanced c [k] HI Hg Hd) as HI'.
  set (c' := advanced c (dispatched c [k])) in *.
  assert (Hred : ∀ k' l, lights c' !! k' = Some l → state l = RED ∧ timer l = 0).
  { intros k' l Hl. by apply (Inv_complete_all_red c [k] k' l). }
  split; [exact Hred|]. split; [|split; [|exact update_gate]].
  - intros j Hj. exists (counting c' j). split; [|reflexivity].
    apply run_gate. simpl. lia.
  - destruct (Inv_active c' HI') as (k' & Hg' & _). exists k'.
    set (m := (Z.to_nat (Z.max 1 (all_red_time c)) - 1)%nat).
    replace (Z.to_nat (Z.max 1 (all_red_time c))) with (S m) by lia.
    destruct (Inv_resume (counting c' m) k') as (cw & l & Hu & Hl & Hs).
    + by apply counting_Inv.
    + simpl. lia.
    + exact Hg'.
    + exact Hred.
    + exists cw, l. split; [exact Hg'|]. split; [|by split].
      rewrite run_snoc, run_gate by (simpl; lia). exact Hu.
Qed.

Lemma clearance_window_witness :
  frozen_for 3 (after 8 single_lane)
  ∧ ∃ k cw l,
      current_group_phase (after 8 single_lane)
        !! current_group (after 8 single_lane) = Some [k]
      ∧ run 4 (after 8 single_lane) = Ok cw
      ∧ lights cw !! k = Some l ∧ state l = GREEN.
Proof.
  destruct (clearance_window (after 7 single_lane) (after 8 single_lane))
    as (_ & Hf & Hw & _).
  - apply reachable_after; [apply reach_start | vm_compute; reflexivity].
  - split; [vm_compute; reflexivity|]. split; [vm_compute; discriminate|].
    exists [("NS", "through")]. split; vm_compute; reflexivity.
  - split; [exact Hf | exact Hw].
Defined.

Lemma mutual_exclusion_witness :
  ∃ active,
    current_group_phase (after 2 two_lanes)
      !! current_group (after 2 two_lanes) = Some active
    ∧ (state <$> lights (after 2 two_lanes) !! ("NS", "through")
       = Some GREEN)
    ∧ ∀ k l, lights (after 2 two_lanes) !! k = Some l → k ∉ active →
        state l = RED.
Proof.
  destruct (mutual_exclusion (after 2 two_lanes)) as (a & Ha & Hidle & _).
  - apply reachable_after; [apply reach_start | vm_compute; reflexivity].
  - exists a. split; [exact Ha|]. split; [vm_compute; reflexivity | exact Hidle].
Defined.

Lemma idle_lights_red_zero_witness :
  ∃ active,
    current_group_phase (after 5 two_lanes)
      !! current_group (after 5 two_lanes) = Some active
    ∧ (current_group (after 6 two_lanes) ≠ current_group (after 5 two_lanes))
    ∧ ∀ k l, lights (after 6 two_lanes) !! k = Some l →
        state l = RED ∧ timer l = 0.
Proof.
  destruct (idle_lights_red_zero (after 5 two_lanes))
    as (a & Ha & _ & Hchg & _).
  - apply reachable_after; [apply reach_start | vm_compute; reflexivity].
  - exists a. split; [exact Ha|].
    assert (Hne : current_group (after 6 two_lanes)
                  ≠ current_group (after 5 two_lanes))
      by (vm_compute; discriminate).
    split; [exact Hne|].
    apply (Hchg (after 6 two_lanes)); [vm_compute; reflexivity | exact Hne].
Defined.

Lemma completion_check_witness :
  ∃ active c',
    current_group_phase (after 5 two_lanes)
      !! current_group (after 5 two_lanes) = Some active
    ∧ update (after 5 two_lanes) = Ok c'
    ∧ lights c' = dispatched (after 5 two_lanes) active
    ∧ current_group_phase c' = current_group_phase (after 5 two_lanes).
Proof.
  destruct (completion_check (after 5 two_lanes))
    as (a & c' & Ha & Hu & Hl & Hg & _).
  - apply reachable_after; [apply reach_start | vm_compute; reflexivity].
  - vm_compute. discriminate.
  - exists a, c'. repeat split; assumption.
Defined.

Lemma forced_red_frame_witness :
  lights (after 1 stray_yellow) !! ("EW", "through")
  = Some {| signal_phase := SignalPhase_init 3 2; state := RED; timer := 1 |}.
Proof.
  apply (forced_red_frame stray_yellow (after 1 stray_yellow)
           [("NS", "through")] ("EW", "through")
           {| signal_phase := SignalPhase_init 3 2; state := YELLOW;
              timer := 1 |}).
  - vm_compute. reflexivity.
  - vm_compute. discriminate.
  - reflexivity.
  - apply not_elem_of_cons. split; [discriminate | apply not_elem_of_nil].
  - reflexivity.
Defined.

(** Neither misuse is detected: sorting the groups of a controller
    without lanes returns it as it is, and a tick on two lanes that were
    never sorted succeeds and turns the lane registered first GREEN. *)
Lemma misuse_not_rejected :
  sort_lights (IntersectionController_init 4) = IntersectionController_init 4
  ∧ current_group_phase unsorted_lanes
    ≠ current_group_phase (sort_lights unsorted_lanes)
  ∧ update unsorted_lanes = Ok (after 1 unsorted_lanes)
  ∧ lights (after 1 unsorted_lanes) !! ("EW", "left-turn")
    = Some {| signal_phase := SignalPhase_init 2 1; state := GREEN;
              timer := 2 |}.
Proof.
  split; [reflexivity|]. split; [vm_compute; discriminate|].
  split; vm_compute; reflexivity.
Qed.

(** C9, as the code has it — no misuse check.  [sort_lights] on a
    controller without lanes returns it unchanged, and on a controller
    that has at least one lane any number of ticks taken without a prior
    [sort_lights] succeed. *)
Theorem misuse_is_silent (art : Z) (s : LaneSpec) (lanes : list LaneSpec)
    (n : nat) :
  sort_lights (IntersectionController_init art)
  = IntersectionController_init art
  ∧ ∃ c', run n (build art (s :: lanes)) = Ok c'.
Proof.
  split; [reflexivity|].
  destruct (Inv_run (build art (s :: lanes)) n) as (c' & Hr & _).
  - apply Inv_build.
  - by exists c'.
Qed.

(** ** Remarks on sorting and on states outside a run *)

(** Descending order: "NS" sorts above "EW", "through" above
    "left-turn". *)
Example sort_desc_three_lanes :
  sort_desc [[("EW", "left-turn")]; [("NS", "through")];
             [("NS", "left-turn")]]
  = [[("NS", "through")]; [("NS", "left-turn")]; [("EW", "left-turn")]].
Proof. reflexivity. Qed.

(** A tick on a controller without lanes passes the (empty) check and
    then divides by the number of groups. *)
Example update_no_lanes art :
  update (IntersectionController_init art) = Raise ZeroDivisionError.
Proof. reflexivity. Qed.

Example paired_lanes_first_key_only :
  time_in_all_red (after 1 paired_lanes) = 4
  ∧ state <$> lights (after 1 paired_lanes) !! ("NS", "left-turn")
    = Some GREEN.
Proof. split; vm_compute; reflexivity. Qed.

(** * Further properties of the signal head *)

Section Cycle_facts.

Implicit Types (l : TrafficLight) (p : SignalPhase).

(** A state is left by the tick number [max 0 timer + 1]. *)
Lemma ticks_leave n l :
  Z.of_nat n = Z.max 0 (timer l) →
  ticks (S n) l =
    {| signal_phase := signal_phase l; state := next_state (state l);
       timer := duration (signal_phase l) (next_state (state l)) |}.
Proof.
  intros Hn. destruct (Z.lt_ge_cases (timer l) 0) as [Hneg | Hpos].
  - assert (n = 0%nat) as -> by lia. rewrite ticks_S. simpl ticks.
    apply update_expire. lia.
  - apply ticks_through. lia.
Qed.

(** Until then, the state is kept. *)
Lemma ticks_stay n l :
  Z.of_nat n ≤ Z.max 0 (timer l) → state (ticks n l) = state l.
Proof.
  intros Hn. destruct n as [| n]; [reflexivity|].
  rewrite ticks_countdown by lia. reflexivity.
Qed.

End Cycle_facts.

(** X1 — the schedule of a light.  With non-negative green and yellow
    durations [g] and [y], a freshly constructed light is GREEN with timer
    [g - i] after [1 + i] ticks for [0 ≤ i ≤ g], YELLOW with timer [y - i]
    after [1 + g + 1 + i] ticks for [0 ≤ i ≤ y], and RED with timer 0 after
    [1 + g + 1 + y + 1] ticks: GREEN shows for [g + 1] ticks, YELLOW for
    [y + 1], RED for one. *)
Theorem light_schedule (g y : Z) (i : nat) :
  0 ≤ g → 0 ≤ y →
  let p := SignalPhase_init g y in
  let l0 := TrafficLight_init p in
  (Z.of_nat i ≤ g →
     ticks (1 + i) l0
     = {| signal_phase := p; state := GREEN; timer := g - Z.of_nat i |})
  ∧ (Z.of_nat i ≤ y →
     ticks (1 + Z.to_nat g + 1 + i) l0
     = {| signal_phase := p; state := YELLOW; timer := y - Z.of_nat i |})
  ∧ ticks (1 + Z.to_nat g + 1 + Z.to_nat y + 1) l0
    = {| signal_phase := p; state := RED; timer := 0 |}.
Proof.
  intros Hg Hy p l0.
  assert (H1 : ticks 1 l0
               = {| signal_phase := p; state := GREEN; timer := g |}).
  { apply (ticks_through 0). reflexivity. }
  assert (H2 : ticks (1 + Z.to_nat g + 1) l0
               = {| signal_phase := p; state := YELLOW; timer := y |}).
  { replace (1 + Z.to_nat g + 1)%nat with (S (Z.to_nat g) + 1)%nat by lia.
    rewrite ticks_add, H1. apply ticks_through. simpl. lia. }
  split; [|split].
  - intros Hi. replace (1 + i)%nat with (i + 1)%nat by lia.
    rewrite ticks_add, H1. apply ticks_countdown. simpl. lia.
  - intros Hi.
    replace (1 + Z.to_nat g + 1 + i)%nat
      with (i + (1 + Z.to_nat g + 1))%nat by lia.
    rewrite ticks_add, H2. apply ticks_countdown. simpl. lia.
  - replace (1 + Z.to_nat g + 1 + Z.to_nat y + 1)%nat
      with (S (Z.to_nat y) + (1 + Z.to_nat g + 1))%nat by lia.
    rewrite ticks_add, H2. apply ticks_through. simpl. lia.
Qed.

Lemma light_schedule_witness :
  ticks 3 (TrafficLight_init (SignalPhase_init 3 2))
  = {| signal_phase := SignalPhase_init 3 2; state := GREEN; timer := 1 |}.
Proof.
  destruct (light_schedule 3 2 2) as (H & _ & _); [lia | lia |].
  apply H. lia.
Defined.

(** A light whose phase was constructed with any two integers leaves RED
    on its first tick, is not RED before the cycle ends, and ends the
    cycle as constructed. *)
Lemma cycle_shape g y :
  let p := SignalPhase_init g y in
  let l0 := TrafficLight_init p in
  (∀ j, (1 ≤ j < cycle_ticks p)%nat → state (ticks j l0) ≠ RED)
  ∧ ticks (cycle_ticks p) l0 = l0.
Proof.
  intros p l0.
  set (a := Z.to_nat (Z.max 0 g)). set (b := Z.to_nat (Z.max 0 y)).
  assert (Hc : cycle_ticks p = (S b + (S a + 1))%nat).
  { unfold cycle_ticks; simpl. lia. }
  assert (H1 : ticks 1 l0
               = {| signal_phase := p; state := GREEN; timer := g |}).
  { apply (ticks_leave 0). reflexivity. }
  assert (H2 : ticks (S a + 1) l0
               = {| signal_phase := p; state := YELLOW; timer := y |}).
  { rewrite ticks_add, H1. apply ticks_leave. simpl. lia. }
  split.
  - intros j Hj. rewrite Hc in Hj.
    destruct (decide (j ≤ a + 1)%nat) as [Hle | Hgt].
    + replace j with ((j - 1) + 1)%nat by lia.
      rewrite ticks_add, H1, ticks_stay by (simpl; lia). discriminate.
    + replace j with ((j - (S a + 1)) + (S a + 1))%nat by lia.
      rewrite ticks_add, H2, ticks_stay by (simpl; lia). discriminate.
  - rewrite Hc, ticks_add, H2. apply ticks_leave. simpl. lia.
Qed.

(** X2 — cycle length for arbitrary durations.  For any integers [g] and
    [y], negative ones included, a freshly constructed light is back in
    its initial state (RED, timer 0) after exactly
    [1 + max 0 g + 1 + max 0 y + 1] ticks and is GREEN or YELLOW after
    every smaller positive number of ticks. *)
Theorem cycle_length_any_durations (g y : Z) (j : nat) :
  let p := SignalPhase_init g y in
  let l0 := TrafficLight_init p in
  ticks (Z.to_nat (1 + Z.max 0 g + 1 + Z.max 0 y + 1)) l0 = l0
  ∧ ((1 ≤ j < Z.to_nat (1 + Z.max 0 g + 1 + Z.max 0 y + 1))%nat →
     state (ticks j l0) = GREEN ∨ state (ticks j l0) = YELLOW).
Proof.
  intros p l0. destruct (cycle_shape g y) as [Hn Hc]. split; [exact Hc|].
  intros Hj. specialize (Hn j Hj). fold p l0 in Hn.
  destruct (state (ticks j l0)); [done | by left | by right].
Qed.

Lemma cycle_length_any_durations_witness :
  state (ticks 2 (TrafficLight_init (SignalPhase_init (-5) 1))) = GREEN
  ∨ state (ticks 2 (TrafficLight_init (SignalPhase_init (-5) 1))) = YELLOW.
Proof.
  apply (cycle_length_any_durations (-5) 1 2). simpl. lia.
Defined.

(** X3 — periodicity.  For any integers [g] and [y], the state of a
    freshly constructed light after [n] ticks only depends on [n] modulo
    the cycle length: adding any number of whole cycles changes
    nothing. *)
Theorem ticks_periodic (g y : Z) (n m : nat) :
  let p := SignalPhase_init g y in
  ticks (n + m * cycle_ticks p) (TrafficLight_init p)
  = ticks n (TrafficLight_init p).
Proof.
  intros p. destruct (cycle_shape g y) as [_ Hc]. fold p in Hc.
  induction m as [| m IH].
  - f_equal. lia.
  - replace (n + S m * cycle_ticks p)%nat
      with ((n + m * cycle_ticks p) + cycle_ticks p)%nat by lia.
    rewrite ticks_add, Hc. exact IH.
Qed.

(** * Further properties of [sort_lights] *)

Section Order_facts.

Lemma ascii_compare_trans (a b c : Ascii.ascii) :
  Ascii.compare a b = Lt → Ascii.compare b c = Lt → Ascii.compare a c = Lt.
Proof.
  unfold Ascii.compare. rewrite !N.compare_lt_iff. lia.
Qed.

Lemma ascii_compare_eq (a b : Ascii.ascii) : Ascii.compare a b = Eq → a = b.
Proof.
  unfold Ascii.compare. rewrite N.compare_eq_iff. intros H.
  rewrite <- (Ascii.ascii_N_embedding a), <- (Ascii.ascii_N_embedding b).
  by rewrite H.
Qed.

Lemma ascii_compare_refl (a : Ascii.ascii) : Ascii.compare a a = Eq.
Proof. unfold Ascii.compare. apply N.compare_refl. Qed.

Lemma string_compare_trans (s1 s2 s3 : string) :
  String.compare s1 s2 = Lt → String.compare s2 s3 = Lt →
  String.compare s1 s3 = Lt.
Proof.
  revert s2 s3. induction s1 as [| a s1 IH]; intros [| b s2] [| c s3];
    simpl; try done.
  destruct (Ascii.compare a b) eqn:Hab; try done;
    destruct (Ascii.compare b c) eqn:Hbc; try done; intros H1 H2.
  - apply ascii_compare_eq in Hab, Hbc. subst.
    rewrite ascii_compare_refl. by apply (IH s2).
  - apply ascii_compare_eq in Hab. subst. by rewrite Hbc.
  - apply ascii_compare_eq in Hbc. subst. by rewrite Hab.
  - by rewrite (ascii_compare_trans a b c).
Qed.

Lemma string_ltb_strict : StrictTotal String.ltb.
Proof.
  split; unfold String.ltb.
  - intros a b. rewrite (String.compare_antisym b a).
    by destruct (String.compare a b).
  - intros a b c Hab Hbc.
    destruct (String.compare a b) eqn:H1; try done.
    destruct (String.compare b c) eqn:H2; try done.
    by rewrite (string_compare_trans a b c).
  - intros a b Hab Hba. apply String.compare_eq_iff.
    rewrite (String.compare_antisym b a) in Hba.
    by destruct (String.compare a b).
Qed.

Lemma st_irrefl {A} (ltb : A → A → bool) (a : A) :
  StrictTotal ltb → ltb a a = false.
Proof.
  intros H. destruct (ltb a a) eqn:E; [|reflexivity].
  by rewrite (st_asym ltb H a a E) in E.
Qed.

(** Closes a goal about a lexicographic order from the facts about the
    order [HS] on the components. *)
Ltac order_solve HS :=
  intros;
  first
    [ done
    | by eapply (st_trans _ HS)
    | by eapply (st_asym _ HS)
    | match goal with
      | H1 : ?f ?a ?b = true, H2 : ?f ?b ?a = true |- _ =>
          by rewrite (st_asym _ HS _ _ H1) in H2
      | H1 : ?f ?a ?b = false, H2 : ?f ?b ?a = false |- _ =>
          pose proof (st_total _ HS _ _ H1 H2); by subst
      end ].

Lemma key_ltb_strict : StrictTotal key_ltb.
Proof.
  pose proof string_ltb_strict as HS.
  split; unfold key_ltb.
  - intros [a1 a2] [b1 b2]; simpl.
    repeat case_decide; subst; order_solve HS.
  - intros [a1 a2] [b1 b2] [c1 c2]; simpl.
    repeat case_decide; subst; order_solve HS.
  - intros [a1 a2] [b1 b2]; simpl.
    repeat case_decide; subst; order_solve HS.
Qed.

Lemma group_ltb_strict : StrictTotal group_ltb.
Proof.
  pose proof key_ltb_strict as HK. split.
  - intros g. induction g as [| a g IH]; intros [| b h]; simpl; try done.
    repeat case_decide; subst; first [apply IH | order_solve HK].
  - intros g. induction g as [| a g IH]; intros [| b h] [| c k]; simpl;
      try done.
    repeat case_decide; subst; first [apply IH | order_solve HK].
  - intros g. induction g as [| a g IH]; intros [| b h]; simpl; try done.
    repeat case_decide; subst; try done;
      first [intros H1 H2; by rewrite (IH h H1 H2) | order_solve HK].
Qed.

End Order_facts.

Section Sort_by_facts.

Context {A : Type} (ltb : A → A → bool) (Hst : StrictTotal ltb).

Lemma not_below_trans a b c :
  not_below ltb a b → not_below ltb b c → not_below ltb a c.
Proof.
  unfold not_below. intros H1 H2.
  destruct (ltb a c) eqn:E; [|reflexivity].
  destruct (ltb b a) eqn:E1.
  - by rewrite (st_trans _ Hst _ _ _ E1 E) in H2.
  - destruct (st_total _ Hst _ _ H1 E1). congruence.
Qed.

Lemma insert_desc_by_perm x (l : list A) : insert_desc_by ltb x l ≡ₚ x :: l.
Proof.
  induction l as [| y l IH]; simpl; [reflexivity|].
  destruct (ltb x y); [|reflexivity].
  rewrite IH. apply Permutation_swap.
Qed.

Lemma sort_desc_by_perm (l : list A) : sort_desc_by ltb l ≡ₚ l.
Proof.
  induction l as [| x l IH]; simpl; [reflexivity|].
  rewrite insert_desc_by_perm. by apply Permutation_skip.
Qed.

Lemma insert_desc_by_sorted x (l : list A) :
  StronglySorted (not_below ltb) l →
  StronglySorted (not_below ltb) (insert_desc_by ltb x l).
Proof.
  induction 1 as [| y l Hl IH Hy]; simpl.
  - repeat constructor.
  - destruct (ltb x y) eqn:E.
    + constructor; [exact IH|].
      rewrite insert_desc_by_perm.
      constructor; [by apply (st_asym _ Hst) | exact Hy].
    + constructor; [by constructor|]. constructor; [exact E|].
      eapply Forall_impl; [exact Hy|]. intros z Hz.
      by apply (not_below_trans x y z).
Qed.

Lemma sort_desc_by_sorted (l : list A) :
  StronglySorted (not_below ltb) (sort_desc_by ltb l).
Proof.
  induction l as [| x l IH]; simpl;
    [constructor | by apply insert_desc_by_sorted].
Qed.

Lemma sort_desc_by_fixed (l : list A) :
  StronglySorted (not_below ltb) l → sort_desc_by ltb l = l.
Proof.
  induction 1 as [| x l Hl IH Hx]; simpl; [reflexivity|].
  rewrite IH. destruct Hx as [| y l Hy _]; simpl; [reflexivity|].
  unfold not_below in Hy. by rewrite Hy.
Qed.

(** Two descending lists with the same elements are the same list. *)
Lemma sorted_perm_eq (l1 l2 : list A) :
  StronglySorted (not_below ltb) l1 → StronglySorted (not_below ltb) l2 →
  l1 ≡ₚ l2 → l1 = l2.
Proof.
  intros H1. revert l2. induction H1 as [| a l1 Hl1 IH Ha]; intros l2 H2 Hp.
  - by apply Permutation_nil_l in Hp.
  - destruct H2 as [| b l2 Hl2 Hb].
    { by apply Permutation_nil_r in Hp. }
    assert (a = b) as <-.
    { apply (st_total _ Hst).
      - assert (Hin : b ∈ a :: l1) by (rewrite Hp; left).
        apply elem_of_cons in Hin as [-> | Hin].
        + apply (st_irrefl _ _ Hst).
        + by apply (proj1 (Forall_forall _ _) Ha).
      - assert (Hin : a ∈ b :: l2) by (rewrite <- Hp; left).
        apply elem_of_cons in Hin as [-> | Hin].
        + apply (st_irrefl _ _ Hst).
        + by apply (proj1 (Forall_forall _ _) Hb). }
    f_equal. apply IH; [exact Hl2|]. by apply Permutation_cons_inv in Hp.
Qed.

End Sort_by_facts.

Section Group_order_facts.

(** The sort of the groups is the generic one at the order of groups. *)
Lemma sort_desc_by_group (l : list PhaseGroup) :
  sort_desc l = sort_desc_by group_ltb l.
Proof.
  induction l as [| x l IH]; simpl; [reflexivity|]. rewrite IH.
  generalize (sort_desc_by group_ltb l). intros l'.
  induction l' as [| y l' IH']; simpl; [reflexivity|]. by rewrite IH'.
Qed.

Lemma sort_desc_sorted (l : list PhaseGroup) :
  StronglySorted group_ge (sort_desc l).
Proof.
  rewrite sort_desc_by_group.
  apply (sort_desc_by_sorted group_ltb group_ltb_strict).
Qed.

Lemma sort_desc_fixed (l : list PhaseGroup) :
  StronglySorted group_ge l → sort_desc l = l.
Proof.
  rewrite sort_desc_by_group.
  apply (sort_desc_by_fixed group_ltb).
Qed.

Lemma build_groups art lanes :
  current_group_phase (build art lanes) = map (λ s : LaneSpec, [s.1]) lanes.
Proof.
  induction lanes as [| s lanes IH] using rev_ind; [reflexivity|].
  rewrite build_snoc, map_app; simpl. rewrite IH. by destruct s as [[d t] ?].
Qed.

End Group_order_facts.

(** X4 — [sort_lights] sorts.  The groups after [sort_lights] are a
    permutation of the groups before, in descending order (no group is
    below a later one in Python's order on lists of tuples of strings);
    lights, active index, clearance counter and display counter are left
    as they were. *)
Theorem sort_lights_sorts (c : IntersectionController) :
  current_group_phase (sort_lights c) ≡ₚ current_group_phase c
  ∧ StronglySorted group_ge (current_group_phase (sort_lights c))
  ∧ lights (sort_lights c) = lights c
  ∧ current_group (sort_lights c) = current_group c
  ∧ time_in_all_red (sort_lights c) = time_in_all_red c
  ∧ all_red_time (sort_lights c) = all_red_time c
  ∧ ctimer (sort_lights c) = ctimer c.
Proof.
  split; [apply sort_desc_perm|]. split; [apply sort_desc_sorted|].
  repeat split.
Qed.

(** X5 — [sort_lights] is idempotent: a second call changes nothing. *)
Theorem sort_lights_idempotent (c : IntersectionController) :
  sort_lights (sort_lights c) = sort_lights c.
Proof.
  unfold sort_lights; simpl. f_equal.
  apply sort_desc_fixed, sort_desc_sorted.
Qed.

(** X6 — the sorted order is canonical.  Registering the same lanes in a
    different order gives, after [sort_lights], the same list of groups. *)
Theorem sort_lights_canonical (art : Z) (lanes lanes' : list LaneSpec) :
  lanes ≡ₚ lanes' →
  current_group_phase (sort_lights (build art lanes))
  = current_group_phase (sort_lights (build art lanes')).
Proof.
  intros Hp. simpl.
  apply (sorted_perm_eq group_ltb group_ltb_strict);
    try apply sort_desc_sorted.
  rewrite !sort_desc_perm, !build_groups. by apply Permutation_map.
Qed.

Lemma sort_lights_canonical_witness :
  current_group_phase
    (sort_lights (build 4 [(("EW", "left-turn"), (2, 1));
                           (("NS", "through"), (5, 2))]))
  = current_group_phase
      (sort_lights (build 4 [(("NS", "through"), (5, 2));
                             (("EW", "left-turn"), (2, 1))])).
Proof.
  apply (sort_lights_canonical 4). apply Permutation_swap.
Defined.

(** * Further properties of registration and of single ticks *)

Section Tick_facts.

Implicit Types (c : IntersectionController) (g : PhaseGroup) (k : LaneKey).

Lemma dispatched_dom c g : dom (dispatched c g) = dom (lights c).
Proof.
  apply set_eq. intros k. rewrite !elem_of_dom. apply dispatched_is_Some.
Qed.

Lemma dispatched_phase c g k l' :
  dispatched c g !! k = Some l' →
  ∃ l, lights c !! k = Some l ∧ signal_phase l' = signal_phase l.
Proof.
  rewrite dispatched_lookup. destruct (lights c !! k) as [l|]; [|done].
  simpl. intros [= <-]. exists l. split; [reflexivity|].
  destruct (key_in k g); [apply update_phase | apply force_red_phase].
Qed.

Lemma dispatch_cases c ls :
  dispatch c = Ok ls →
  ls = lights c ∨ ∃ g, current_group_phase c !! current_group c = Some g
                       ∧ ls = dispatched c g.
Proof.
  unfold dispatch. case_decide; [intros [= <-]; by left|].
  destruct (current_group_phase c !! current_group c) as [g|]; [|done].
  intros [= <-]. right. by exists g.
Qed.

(** The three outcomes of a successful tick. *)
Lemma update_cases c c' :
  update c = Ok c' →
  c' = gated c
  ∨ ∃ ls, dispatch c = Ok ls ∧ (c' = advanced c ls ∨ c' = stayed c ls).
Proof.
  unfold update. destruct (1 <? time_in_all_red c); [intros [= <-]; by left|].
  destruct (dispatch c) as [ls|]; [|done]. simpl.
  destruct (all_red_zero ls (current_group_phase c)) as [[]|]; simpl;
    [| intros [= <-]; right; exists ls; auto | done].
  case_decide; [done|]. intros [= <-]. right. exists ls. auto.
Qed.

Lemma update_lights_cases c c' :
  update c = Ok c' →
  lights c' = lights c
  ∨ ∃ g, current_group_phase c !! current_group c = Some g
         ∧ lights c' = dispatched c g.
Proof.
  intros [-> | (ls & Hd & Hc)]%update_cases; [by left|].
  assert (lights c' = ls) as -> by (by destruct Hc as [-> | ->]).
  by apply dispatch_cases.
Qed.

Lemma update_phases c c' k l' :
  update c = Ok c' → lights c' !! k = Some l' →
  ∃ l, lights c !! k = Some l ∧ signal_phase l' = signal_phase l.
Proof.
  intros [Hl | (g & _ & Hl)]%update_lights_cases; rewrite Hl.
  - eauto.
  - apply dispatched_phase.
Qed.

Lemma all_red_zero_total (ls : gmap LaneKey TrafficLight)
    (groups : list PhaseGroup) :
  (∀ g, g ∈ groups → ∃ k rest, g = k :: rest ∧ is_Some (ls !! k)) →
  ∃ b, all_red_zero ls groups = Ok b.
Proof.
  induction groups as [| g groups IH]; intros H; [by exists true|].
  destruct (H g) as (k & rest & -> & [l Hl]); [left|].
  simpl. rewrite Hl.
  destruct (bool_decide (state l = RED) && (timer l =? 0)); [|by exists false].
  apply IH. intros g' Hg'. apply H. by right.
Qed.

Lemma Shape_update c : Shape c → ∃ c', update c = Ok c' ∧ Shape c'.
Proof.
  intros [Hg Hi].
  destruct (lookup_lt_is_Some_2 _ _ Hi) as [g Hact].
  assert (Hd : ∀ g', g' ∈ current_group_phase c →
            ∃ k rest, g' = k :: rest ∧ is_Some (dispatched c g !! k)).
  { intros g' Hg'. destruct (Hg g' Hg') as (k & rest & -> & Hk).
    exists k, rest. split; [reflexivity|]. by apply dispatched_is_Some. }
  unfold update. destruct (1 <? time_in_all_red c).
  { eexists. split; [reflexivity|]. by split. }
  rewrite (dispatch_active c g Hact). simpl.
  destruct (all_red_zero_total (dispatched c g) (current_group_phase c) Hd)
    as [b ->]. simpl.
  destruct b.
  - case_decide as Hlen; [lia|]. eexists. split; [reflexivity|].
    split; simpl; [exact Hd|]. apply mod_succ_lt. lia.
  - eexists. split; [reflexivity|]. by split.
Qed.

Lemma Shape_add_light c d t p :
  Shape c ∨ (current_group_phase c = [] ∧ current_group c = 0%nat) →
  Shape (add_light c d t p).
Proof.
  intros H. split; simpl.
  - intros g Hg. apply elem_of_app in Hg as [Hg | Hg].
    + destruct H as [[Hs _] | [He _]].
      2: { rewrite He in Hg. by apply elem_of_nil in Hg. }
      destruct (Hs g Hg) as (k & rest & -> & Hk).
      exists k, rest. split; [reflexivity|].
      apply lookup_insert_is_Some.
      destruct (decide ((d, t) = k)); [by left | by right].
    + apply list_elem_of_singleton in Hg as ->.
      exists (d, t), []. split; [reflexivity|].
      rewrite lookup_insert_eq. eauto.
  - rewrite length_app; simpl.
    destruct H as [[_ Hi] | [_ Hi]]; lia.
Qed.

Lemma Shape_sort_lights c : Shape c → Shape (sort_lights c).
Proof.
  intros [Hg Hi]. split; simpl.
  - intros g. rewrite sort_desc_perm. apply Hg.
  - by rewrite sort_desc_perm.
Qed.

Lemma Shape_exec_all c ops : Shape c → ∃ c', exec_all c ops = Ok c'.
Proof.
  revert c. induction ops as [| op ops IH]; intros c Hc; [by exists c|].
  destruct op as [d t p | | |]; simpl.
  - apply IH. apply Shape_add_light. by left.
  - destruct (Shape_update c Hc) as (c' & -> & Hc'). simpl. by apply IH.
  - apply IH. by apply Shape_sort_lights.
  - apply IH. destruct Hc. by split.
Qed.

End Tick_facts.

(** X7 — registration.  After any sequence of [add_light] calls the groups
    are the single-lane groups of the calls in call order, one per call;
    the registered keys are exactly the keys used; and the light stored
    under a key is the fresh light (RED, timer 0) of the last call that
    used this key. *)
Theorem registration (art : Z) (lanes : list LaneSpec) (k : LaneKey) :
  current_group_phase (build art lanes) = map (λ s : LaneSpec, [s.1]) lanes
  ∧ dom (lights (build art lanes)) = list_to_set (lanes.*1)
  ∧ lights (build art lanes) !! k
    = fresh_light <$> last (filter (λ s : LaneSpec, s.1 = k) lanes).
Proof.
  split; [apply build_groups|].
  induction lanes as [| s lanes [IHd IHl]] using rev_ind.
  - split; [apply dom_empty_L | apply lookup_empty].
  - rewrite build_snoc. destruct s as [[d t] [g y]].
    unfold add_lane, add_light; simpl. split.
    + rewrite dom_insert_L, IHd, fmap_app, list_to_set_app_L. simpl.
      rewrite (right_id_L ∅ (∪)). apply (comm_L (∪)).
    + rewrite filter_app, filter_cons, filter_nil. simpl. case_decide as Hk.
      * subst k. rewrite last_snoc, lookup_insert_eq. reflexivity.
      * rewrite app_nil_r, lookup_insert_ne by exact Hk. exact IHl.
Qed.

(** X8 — what a tick leaves alone.  A successful [update] never adds or
    removes a lane, never changes the phase of a light, the groups, the
    all-red time or the display counter, and the active index either stays
    or moves to the next group cyclically. *)
Theorem update_frame (c c' : IntersectionController) :
  update c = Ok c' →
  dom (lights c') = dom (lights c)
  ∧ (∀ k l', lights c' !! k = Some l' →
       ∃ l, lights c !! k = Some l ∧ signal_phase l' = signal_phase l)
  ∧ current_group_phase c' = current_group_phase c
  ∧ all_red_time c' = all_red_time c
  ∧ ctimer c' = ctimer c
  ∧ (current_group c' = current_group c
     ∨ current_group c'
       = ((current_group c + 1) `mod` length (current_group_phase c))%nat).
Proof.
  intros Hu. split; [|split].
  - apply update_lights_cases in Hu as [-> | (g & _ & ->)];
      [reflexivity | apply dispatched_dom].
  - intros k l'. by apply update_phases.
  - apply update_cases in Hu as [-> | (ls & _ & [-> | ->])];
      simpl; repeat split; auto.
Qed.

Lemma update_frame_witness :
  dom (lights (after 1 two_lanes)) = dom (lights two_lanes)
  ∧ current_group_phase (after 1 two_lanes) = current_group_phase two_lanes.
Proof.
  destruct (update_frame two_lanes (after 1 two_lanes)) as (H1 & _ & H2 & _).
  - vm_compute. reflexivity.
  - split; [exact H1 | exact H2].
Defined.

(** X9 — a tick before any lane is registered.  On a new controller,
    whatever [sort_lights] and [update_timer] calls come first, the first
    [update] raises [ZeroDivisionError]: the check over no groups passes
    and the index is then reduced modulo 0. *)
Theorem update_before_lanes (art : Z) (ops : list call) :
  Forall (λ op, op = SortLights ∨ op = UpdateTimer) ops →
  exec_all (IntersectionController_init art) (ops ++ [Update])
  = Raise ZeroDivisionError.
Proof.
  intros Hops.
  assert (H : ∀ n, exec_all
            {| all_red_time := art; time_in_all_red := 0; ctimer := n;
               lights := ∅; current_group := 0%nat;
               current_group_phase := [] |} (ops ++ [Update])
            = Raise ZeroDivisionError).
  { induction Hops as [| op ops [-> | ->] _ IH]; intros n.
    - reflexivity.
    - apply (IH n).
    - apply (IH (n + 1)). }
  apply (H 0).
Qed.

Lemma update_before_lanes_witness :
  exec_all (IntersectionController_init 4) [SortLights; UpdateTimer; Update]
  = Raise ZeroDivisionError.
Proof.
  apply (update_before_lanes 4 [SortLights; UpdateTimer]).
  constructor; [by left|]. constructor; [by right | constructor].
Defined.

(** X10 — no exception once a lane is registered.  If the first call on a
    new controller is [add_light], then no sequence of [add_light],
    [update], [sort_lights] and [update_timer] calls after it raises,
    whatever the keys, the phases and the order of the calls. *)
Theorem calls_never_raise (art : Z) (d t : string) (p : SignalPhase)
    (ops : list call) :
  ∃ c', exec_all (IntersectionController_init art) (AddLight d t p :: ops)
        = Ok c'.
Proof.
  simpl. apply Shape_exec_all, Shape_add_light. right. by split.
Qed.

(** * Further properties: turns, rotation and liveness *)

Section Turn_facts.

Implicit Types (c : IntersectionController) (k : LaneKey) (l : TrafficLight).

Lemma run_add a b c : run (a + b) c = (c' ← run a c; run b c').
Proof.
  revert c. induction a as [| a IH]; intros c; [reflexivity|].
  change (run (S a + b) c) with (c1 ← update c; run (a + b) c1).
  change (run (S a) c) with (c1 ← update c; run a c1).
  destruct (update c) as [c1|]; simpl; [apply IH | reflexivity].
Qed.

Lemma Inv_run_Ok c n c' : Inv c → run n c = Ok c' → Inv c'.
Proof.
  intros HI Hr. destruct (Inv_run c n HI) as (c'' & Hr' & HI'). congruence.
Qed.

Lemma stayed_id c : stayed c (lights c) = c.
Proof. by destruct c. Qed.

(** The dispatch when only the active lane's light has moved on. *)
Lemma dispatched_active_only c k l' :
  Inv c → current_group_phase c !! current_group c = Some [k] →
  is_Some (lights c !! k) →
  dispatched (stayed c (<[k := l']> (lights c))) [k]
  = <[k := TrafficLight_update l']> (lights c).
Proof.
  intros HI Hg Hk. apply map_eq. intros k'.
  rewrite dispatched_lookup. cbn [lights stayed]. unfold key_in.
  destruct (decide (k' = k)) as [-> | Hne].
  - rewrite !lookup_insert_eq. simpl.
    rewrite bool_decide_eq_true_2; [reflexivity | by left].
  - rewrite !lookup_insert_ne by done.
    destruct (lights c !! k') as [l0|] eqn:Hl0; [|reflexivity]. simpl.
    assert (Hout : k' ∉ [k]) by (by intros ->%list_elem_of_singleton).
    rewrite bool_decide_eq_false_2 by exact Hout.
    rewrite force_red_id; [reflexivity|].
    by destruct (inv_idle c HI [k] k' l0).
Qed.

Lemma Inv_moved c k l' :
  Inv c → current_group_phase c !! current_group c = Some [k] →
  is_Some (lights c !! k) →
  Inv (stayed c (<[k := l']> (lights c))).
Proof.
  intros [H1 H2 H3 H4] Hg Hk. split; cbn [lights stayed current_group
    current_group_phase].
  - intros g Hin. destruct (H1 g Hin) as (k0 & -> & Hk0).
    exists k0. split; [reflexivity|]. apply lookup_insert_is_Some.
    destruct (decide (k = k0)); [by left | by right].
  - intros k0 Hk0. apply H2. apply lookup_insert_is_Some in Hk0.
    destruct Hk0 as [<- | [_ ?]]; assumption.
  - exact H3.
  - intros g k0 l0 Hg0 Hl0 Hout.
    pose proof (eq_trans (eq_sym Hg0) Hg) as [= ->].
    rewrite lookup_insert_ne in Hl0.
    + by apply (H4 [k] k0 l0).
    + intros ->. apply Hout. by left.
Qed.

(** One tick inside a turn: the active lane's light makes its own step
    and, unless it arrives at RED with timer 0, nothing else changes. *)
Lemma update_moved c k l' :
  Inv c → time_in_all_red c ≤ 1 →
  current_group_phase c !! current_group c = Some [k] →
  is_Some (lights c !! k) →
  update (stayed c (<[k := l']> (lights c)))
  = Ok (if red_zero (TrafficLight_update l')
        then advanced c (<[k := TrafficLight_update l']> (lights c))
        else stayed c (<[k := TrafficLight_update l']> (lights c))).
Proof.
  intros HI Ht Hg Hk.
  rewrite (Inv_update _ [k] (Inv_moved c k l' HI Hg Hk) Hg).
  cbn [time_in_all_red stayed].
  destruct (Z.ltb_spec 1 (time_in_all_red c)); [lia|].
  rewrite (dispatched_active_only c k l' HI Hg Hk).
  rewrite group_complete_single, lookup_insert_eq. reflexivity.
Qed.

Lemma turn_progress c k l i :
  Inv c → time_in_all_red c ≤ 1 →
  current_group_phase c !! current_group c = Some [k] →
  lights c !! k = Some l →
  (∀ j, (1 ≤ j ≤ i)%nat → state (ticks j l) ≠ RED) →
  run i c = Ok (stayed c (<[k := ticks i l]> (lights c))).
Proof.
  intros HI Ht Hg Hl. induction i as [| i IH]; intros Hnr.
  - simpl. rewrite insert_id by exact Hl. by rewrite stayed_id.
  - rewrite run_snoc, IH by (intros j Hj; apply Hnr; lia). simpl.
    rewrite (update_moved c k _ HI Ht Hg) by eauto.
    unfold red_zero. rewrite <- ticks_S.
    rewrite bool_decide_eq_false_2; [reflexivity|]. apply Hnr. lia.
Qed.

Lemma turn_finish c k l i :
  Inv c → time_in_all_red c ≤ 1 →
  current_group_phase c !! current_group c = Some [k] →
  lights c !! k = Some l →
  (∀ j, (1 ≤ j ≤ i)%nat → state (ticks j l) ≠ RED) →
  ticks (S i) l = l → state l = RED → timer l = 0 →
  run (S i) c = Ok (next_turn c).
Proof.
  intros HI Ht Hg Hl Hnr Hcyc Hs H0.
  rewrite run_snoc, (turn_progress c k l i HI Ht Hg Hl Hnr). simpl.
  rewrite (update_moved c k _ HI Ht Hg) by eauto.
  rewrite <- ticks_S, Hcyc.
  replace (red_zero l) with true
    by (symmetry; by apply red_zero_spec).
  rewrite insert_id by exact Hl. reflexivity.
Qed.

Lemma gate_ticks_lt c :
  Z.of_nat (gate_ticks c) < Z.max 1 (time_in_all_red c).
Proof. unfold gate_ticks. lia. Qed.

Lemma cycle_ticks_pos p : (3 ≤ cycle_ticks p)%nat.
Proof. unfold cycle_ticks. lia. Qed.

Lemma Resting_active c :
  Resting c →
  ∃ k g y, current_group_phase c !! current_group c = Some [k]
           ∧ lights c !! k
             = Some (TrafficLight_init (SignalPhase_init g y)).
Proof.
  intros [HI Hf]. destruct (Inv_active c HI) as (k & Hg & [l Hl]).
  destruct (Hf k l Hl) as (g & y & ->). by exists k, g, y.
Qed.

Lemma Resting_active_light c k l :
  current_group_phase c !! current_group c = Some [k] →
  lights c !! k = Some l → active_light c = Some l.
Proof. intros Hg Hl. unfold active_light. rewrite Hg. simpl. exact Hl. Qed.

Lemma Resting_next c : Resting c → Resting (next_turn c).
Proof.
  intros [[H1 H2 H3 H4] Hf]. split; [split|]; simpl; try assumption.
  - apply mod_succ_lt. lia.
  - intros g k l _ Hl _. destruct (Hf k l Hl) as (gr & ye & ->). by split.
Qed.

Lemma Resting_counting c j : Resting c → Resting (counting c j).
Proof. intros [HI Hf]. split; [by apply counting_Inv | exact Hf]. Qed.

Lemma Resting_build art s lanes : Resting (build art (s :: lanes)).
Proof.
  split; [apply Inv_build|]. generalize (s :: lanes). clear s lanes.
  intros lanes. induction lanes as [| s lanes IH] using rev_ind.
  - intros k l Hl. cbn in Hl. by rewrite lookup_empty in Hl.
  - rewrite build_snoc. destruct s as [[d t] [g y]]. intros k l.
    unfold add_lane, add_light; simpl. rewrite lookup_insert.
    case_decide; [intros [= <-]; by exists g, y | apply IH].
Qed.

Lemma Resting_start art s lanes :
  Resting (sort_lights (build art (s :: lanes))).
Proof.
  split; [apply Inv_start|]. apply (rest_fresh _ (Resting_build art s lanes)).
Qed.

(** The ticks of a turn, up to the last one. *)
Lemma turn_inside c k l i :
  Resting c →
  current_group_phase c !! current_group c = Some [k] →
  lights c !! k = Some l →
  (i < cycle_ticks (signal_phase l))%nat →
  run (gate_ticks c + i) c
  = Ok (stayed (counting c (gate_ticks c)) (<[k := ticks i l]> (lights c))).
Proof.
  intros [HI Hf] Hg Hl Hi. destruct (Hf k l Hl) as (g & y & ->).
  destruct (cycle_shape g y) as [Hnr _].
  rewrite run_add, run_gate by apply gate_ticks_lt. simpl.
  apply (turn_progress (counting c (gate_ticks c)) k); try assumption.
  - by apply counting_Inv.
  - simpl. unfold gate_ticks. lia.
  - intros j Hj. apply Hnr. simpl in Hi. lia.
Qed.

Lemma turn_whole c : Resting c → run (turn_ticks c) c = Ok (next_turn c).
Proof.
  intros HR. destruct (Resting_active c HR) as (k & g & y & Hg & Hl).
  destruct HR as [HI Hf]. destruct (cycle_shape g y) as [Hnr Hcyc].
  unfold turn_ticks. rewrite (Resting_active_light c k _ Hg Hl). simpl.
  rewrite run_add, run_gate by apply gate_ticks_lt. simpl.
  pose proof (cycle_ticks_pos (SignalPhase_init g y)) as Hpos.
  destruct (cycle_ticks (SignalPhase_init g y)) as [| i] eqn:Hc; [lia|].
  apply (turn_finish (counting c (gate_ticks c)) k
           (TrafficLight_init (SignalPhase_init g y)) i);
    try assumption; try reflexivity.
  - by apply counting_Inv.
  - simpl. unfold gate_ticks. lia.
  - intros j Hj. apply Hnr. lia.
Qed.

Lemma turns_Resting m c : Resting c → Resting (turns m c).
Proof.
  revert c. induction m as [| m IH]; intros c HR; [exact HR|].
  simpl. by apply IH, Resting_next.
Qed.

Lemma turns_run m c :
  Resting c → run (turns_ticks m c) c = Ok (turns m c).
Proof.
  revert c. induction m as [| m IH]; intros c HR; [reflexivity|].
  simpl. rewrite run_add, (turn_whole c HR). simpl.
  by apply IH, Resting_next.
Qed.

Lemma turns_fields m c :
  turns (S m) c
  = {| all_red_time := all_red_time c;
       time_in_all_red := all_red_time c;
       ctimer := ctimer c;
       lights := lights c;
       current_group :=
         ((current_group c + S m) `mod` length (current_group_phase c))%nat;
       current_group_phase := current_group_phase c |}.
Proof.
  revert c. induction m as [| m IH]; intros c; [reflexivity|].
  change (turns (S (S m)) c) with (turns (S m) (next_turn c)).
  rewrite IH. simpl. f_equal.
  rewrite Nat.Div0.add_mod_idemp_l. f_equal. lia.
Qed.

End Turn_facts.

Section Rotation_facts.

Implicit Types (c : IntersectionController) (k : LaneKey) (l : TrafficLight).

Lemma cyc_sum_S f n s m :
  cyc_sum f n s (S m) = (f (s `mod` n) + cyc_sum f n (S s) m)%nat.
Proof. reflexivity. Qed.

Lemma cyc_sum_snoc f n s m :
  cyc_sum f n s (S m) = (cyc_sum f n s m + f ((s + m) `mod` n))%nat.
Proof.
  revert s. induction m as [| m IH]; intros s.
  - rewrite cyc_sum_S. cbn [cyc_sum]. replace (s + 0)%nat with s by lia. lia.
  - rewrite cyc_sum_S, IH, (cyc_sum_S f n s m).
    replace (S s + m)%nat with (s + S m)%nat by lia. lia.
Qed.

Lemma cyc_sum_mod f n s m : cyc_sum f n (s `mod` n) m = cyc_sum f n s m.
Proof.
  revert s. induction m as [| m IH]; intros s; [reflexivity|].
  rewrite !cyc_sum_S, Nat.Div0.mod_mod. f_equal.
  rewrite <- (IH (S (s `mod` n))), <- (IH (S s)). f_equal.
  replace (S (s `mod` n)) with (s `mod` n + 1)%nat by lia.
  replace (S s) with (s + 1)%nat by lia.
  apply Nat.Div0.add_mod_idemp_l.
Qed.

(** A sum over one full round does not depend on where the round
    starts. *)
Lemma cyc_sum_round f n s : cyc_sum f n s n = cyc_sum f n 0 n.
Proof.
  induction s as [| s IH]; [reflexivity|]. rewrite <- IH.
  destruct n as [| n]; [reflexivity|].
  rewrite cyc_sum_snoc, (cyc_sum_S f (S n) s n).
  replace (S s + n)%nat with (s + S n)%nat by lia.
  rewrite <- (Nat.Div0.add_mod_idemp_r s (S n) (S n)), Nat.Div0.mod_same.
  replace (s + 0)%nat with s by lia. lia.
Qed.

Lemma cyc_sum_list {A} (h : A → nat) (xs : list A) (s m : nat) :
  (s + m ≤ length xs)%nat →
  cyc_sum (λ i, from_option h 0%nat (xs !! i)) (length xs) s m
  = sum_list (h <$> take m (drop s xs)).
Proof.
  revert s. induction m as [| m IH]; intros s Hs; [reflexivity|].
  rewrite cyc_sum_S, Nat.mod_small by lia. rewrite IH by lia.
  destruct (lookup_lt_is_Some_2 xs s) as [x Hx]; [lia|].
  rewrite Hx. simpl. rewrite (drop_S xs x s Hx). reflexivity.
Qed.

Lemma reachable_from_start c :
  reachable c →
  ∃ art s lanes j, run j (sort_lights (build art (s :: lanes))) = Ok c.
Proof.
  induction 1 as [art s lanes | c c' _ (art & s & lanes & j & Hj) Hu].
  - by exists art, s, lanes, 0%nat.
  - exists art, s, lanes, (S j). rewrite run_snoc, Hj. exact Hu.
Qed.

Lemma reachable_phase c k l :
  reachable c → lights c !! k = Some l →
  ∃ g y, signal_phase l = SignalPhase_init g y.
Proof.
  intros Hc. revert k l. induction Hc as [art s lanes | c c' _ IH Hu].
  - intros k l Hl.
    destruct (rest_fresh _ (Resting_start art s lanes) k l Hl)
      as (g & y & ->). by exists g, y.
  - intros k l' Hl'.
    destruct (update_phases c c' k l' Hu Hl') as (l & Hl & ->).
    by apply (IH k).
Qed.

Lemma reachable_Resting c : reachable c → all_red c → Resting c.
Proof.
  intros Hc Hred. split; [by apply reachable_Inv|].
  intros k l Hl. destruct (reachable_phase c k l Hc Hl) as (g & y & Hp).
  destruct (Hred k l Hl) as [Hs Ht]. exists g, y.
  destruct l as [p s t]; simpl in *. by subst.
Qed.

Lemma turn_ticks_ge c : Resting c → (3 ≤ turn_ticks c)%nat.
Proof.
  intros HR. destruct (Resting_active c HR) as (k & g & y & Hg & Hl).
  unfold turn_ticks. rewrite (Resting_active_light c k _ Hg Hl). simpl.
  pose proof (cycle_ticks_pos (SignalPhase_init g y)). lia.
Qed.

Lemma turns_ticks_ge m c : Resting c → (3 * m ≤ turns_ticks m c)%nat.
Proof.
  revert c. induction m as [| m IH]; intros c HR; [simpl; lia|].
  simpl turns_ticks. pose proof (turn_ticks_ge c HR).
  pose proof (IH (next_turn c) (Resting_next c HR)). lia.
Qed.

(** The ticks of [m] turns as a sum over the groups visited. *)
Lemma turns_ticks_sum m c :
  Resting c → time_in_all_red c = all_red_time c →
  turns_ticks m c
  = cyc_sum (λ i, from_option (λ g, (gate_ticks c + group_cycle c g)%nat)
                    0%nat (current_group_phase c !! i))
      (length (current_group_phase c)) (current_group c) m.
Proof.
  revert c. induction m as [| m IH]; intros c HR Ht; [reflexivity|].
  simpl turns_ticks. rewrite IH by (by apply Resting_next || reflexivity).
  destruct (Resting_active c HR) as (k & g & y & Hg & Hl).
  pose proof (inv_index c (rest_inv c HR)) as Hi.
  rewrite cyc_sum_S, (Nat.mod_small _ _ Hi). cbv beta.
  assert (Hf : ∀ (f : PhaseGroup → nat) o,
            o = Some [k] → from_option f 0%nat o = f [k])
    by (by intros f o ->).
  rewrite (Hf _ _ Hg). f_equal.
  - unfold turn_ticks, group_cycle.
    rewrite (Resting_active_light c k _ Hg Hl). simpl. by rewrite Hl.
  - cbn [next_turn advanced current_group current_group_phase lights].
    replace (current_group c + 1)%nat with (S (current_group c)) by lia.
    rewrite cyc_sum_mod. unfold gate_ticks, group_cycle. simpl.
    by rewrite Ht.
Qed.

End Rotation_facts.

(** X11 — the schedule of a turn.  In a state of a run in which every
    light is RED with timer 0 (the start, or the state a completion
    leaves), the active group has one lane; the first [gate_ticks] ticks
    only count the clearance counter down; during the following ticks the
    only change is that the active lane's light goes through its own
    cycle, tick by tick; and the turn ends, after the ticks of one
    cycle, with every light as before, the next group active and the
    clearance counter set to the all-red time. *)
Theorem turn_schedule (c : IntersectionController) :
  reachable c → all_red c →
  ∃ k l,
    current_group_phase c !! current_group c = Some [k]
    ∧ lights c !! k = Some l
    ∧ (∀ j, (j ≤ gate_ticks c)%nat → run j c = Ok (counting c j))
    ∧ (∀ i, (i < cycle_ticks (signal_phase l))%nat →
         run (gate_ticks c + i) c
         = Ok (stayed (counting c (gate_ticks c))
                 (<[k := ticks i l]> (lights c))))
    ∧ run (gate_ticks c + cycle_ticks (signal_phase l)) c
      = Ok (advanced c (lights c)).
Proof.
  intros Hc Hred. pose proof (reachable_Resting c Hc Hred) as HR.
  destruct (Resting_active c HR) as (k & g & y & Hg & Hl).
  exists k, (TrafficLight_init (SignalPhase_init g y)).
  split; [exact Hg|]. split; [exact Hl|]. split; [|split].
  - intros j Hj. apply run_gate. pose proof (gate_ticks_lt c). lia.
  - intros i Hi. by apply turn_inside.
  - pose proof (turn_whole c HR) as Hw. unfold turn_ticks in Hw.
    by rewrite (Resting_active_light c k _ Hg Hl) in Hw.
Qed.

Lemma turn_schedule_witness :
  ∃ k l,
    current_group_phase (after 6 two_lanes)
      !! current_group (after 6 two_lanes) = Some [k]
    ∧ lights (after 6 two_lanes) !! k = Some l
    ∧ run (gate_ticks (after 6 two_lanes) + cycle_ticks (signal_phase l))
        (after 6 two_lanes)
      = Ok (advanced (after 6 two_lanes) (lights (after 6 two_lanes))).
Proof.
  destruct (turn_schedule (after 6 two_lanes)) as (k & l & H1 & H2 & _ & _ & H3).
  - apply reachable_after; [apply reach_start | vm_compute; reflexivity].
  - apply (bool_decide_unpack
             (map_Forall (λ _ l, state l = RED ∧ timer l = 0)
                (lights (after 6 two_lanes)))).
    vm_compute. exact I.
  - exists k, l. auto.
Defined.

Section Liveness_facts.

Implicit Types (c : IntersectionController).

Lemma run_groups n c c' :
  run n c = Ok c' → current_group_phase c' = current_group_phase c.
Proof.
  revert c. induction n as [| n IH]; intros c; simpl; [by intros [= <-]|].
  destruct (update c) as [c1|] eqn:Hu; [|done]. simpl. intros Hr.
  rewrite (IH c1 Hr). by apply update_groups.
Qed.

Lemma turns_full_round c :
  Resting c → time_in_all_red c = all_red_time c →
  turns (length (current_group_phase c)) c = c.
Proof.
  intros HR Ht. pose proof (inv_index c (rest_inv c HR)) as Hi.
  destruct (length (current_group_phase c)) as [| n] eqn:Hn; [lia|].
  rewrite turns_fields, Hn.
  replace ((current_group c + S n) `mod` S n)%nat with (current_group c).
  - destruct c; simpl in *. by subst.
  - rewrite <- Nat.Div0.add_mod_idemp_r, Nat.Div0.mod_same, Nat.add_0_r.
    symmetry. by apply Nat.mod_small.
Qed.

Lemma first_tick_green g y :
  state (ticks 1 (TrafficLight_init (SignalPhase_init g y))) = GREEN.
Proof. by rewrite (ticks_leave 0). Qed.

End Liveness_facts.

(** X12 — the controller is periodic.  From a state of a run in which
    every light is RED with timer 0 and the clearance counter equals the
    all-red time (the state every completion leaves), the controller is
    in exactly the same state again after a number of ticks equal to the
    sum, over the groups, of the gated ticks [max 1 all_red_time - 1]
    plus the cycle length [1 + max 0 g + 1 + max 0 y + 1] of the group's
    light. *)
Theorem controller_periodic (c : IntersectionController) :
  reachable c → all_red c → time_in_all_red c = all_red_time c →
  run (sum_list ((λ g, (gate_ticks c + group_cycle c g)%nat)
                   <$> current_group_phase c)) c
  = Ok c.
Proof.
  intros Hc Hred Ht. pose proof (reachable_Resting c Hc Hred) as HR.
  pose proof (turns_run (length (current_group_phase c)) c HR) as Hrun.
  rewrite (turns_full_round c HR Ht) in Hrun.
  rewrite (turns_ticks_sum _ c HR Ht), cyc_sum_round in Hrun.
  rewrite cyc_sum_list in Hrun by lia.
  by rewrite drop_0, firstn_all in Hrun.
Qed.

Lemma controller_periodic_witness :
  run 11 (after 8 single_lane) = Ok (after 8 single_lane).
Proof.
  apply (controller_periodic (after 8 single_lane)).
  - apply reachable_after; [apply reach_start | vm_compute; reflexivity].
  - apply (bool_decide_unpack
             (map_Forall (λ _ l, state l = RED ∧ timer l = 0)
                (lights (after 8 single_lane)))).
    vm_compute. exact I.
  - vm_compute. reflexivity.
Defined.

(** X13 — no lane starves.  From every state of a run and for every lane
    of every group, some number of further ticks brings that lane's light
    to GREEN (and no tick on the way raises). *)
Theorem every_lane_gets_green (c : IntersectionController) (i : nat)
    (g : PhaseGroup) (k : LaneKey) :
  reachable c → current_group_phase c !! i = Some g → k ∈ g →
  ∃ T cT l,
    run T c = Ok cT ∧ lights cT !! k = Some l ∧ state l = GREEN.
Proof.
  intros Hc Hi Hk.
  destruct (reachable_from_start c Hc) as (art & s & lanes & j & Hj).
  set (c0 := sort_lights (build art (s :: lanes))) in *.
  pose proof (Resting_start art s lanes) as HR0. fold c0 in HR0.
  pose proof (run_groups j c0 c Hj) as Hgr. rewrite Hgr in Hi.
  set (n := length (current_group_phase c0)).
  assert (Hin : (i < n)%nat) by (eapply lookup_lt_Some, Hi).
  set (m := (i + n * S j)%nat).
  assert (Hm : ∃ m', m = S m') by (exists (m - 1)%nat; unfold m; nia).
  destruct Hm as [m' Hm'].
  set (cm := turns m c0).
  pose proof (turns_Resting m c0 HR0) as HRm. fold cm in HRm.
  assert (Hcm : cm = {| all_red_time := all_red_time c0;
                        time_in_all_red := all_red_time c0;
                        ctimer := ctimer c0; lights := lights c0;
                        current_group := i;
                        current_group_phase := current_group_phase c0 |}).
  { assert (H0 : current_group c0 = 0%nat)
      by apply (fresh_index _ (build_fresh art (s :: lanes))).
    unfold cm. rewrite Hm', turns_fields, <- Hm'. f_equal.
    rewrite H0. fold n. unfold m.
    rewrite Nat.add_0_l, Nat.mul_comm, Nat.Div0.mod_add.
    by apply Nat.mod_small. }
  destruct (Resting_active cm HRm) as (k' & gr & ye & Hact & Hl).
  assert (k' = k) as ->.
  { rewrite Hcm in Hact. simpl in Hact.
    pose proof (eq_trans (eq_sym Hi) Hact) as [= ->].
    by apply list_elem_of_singleton in Hk. }
  pose proof (cycle_ticks_pos (SignalPhase_init gr ye)) as Hpos.
  pose proof (turn_inside cm k _ 1 HRm Hact Hl) as Hin1.
  simpl signal_phase in Hin1. specialize (Hin1 ltac:(lia)).
  pose proof (turns_run m c0 HR0) as Hrun. fold cm in Hrun.
  pose proof (turns_ticks_ge m c0 HR0) as Hge.
  set (T0 := (turns_ticks m c0 + (gate_ticks cm + 1))%nat).
  assert (HT0 : run T0 c0
            = Ok (stayed (counting cm (gate_ticks cm))
                    (<[k := ticks 1 (TrafficLight_init
                                      (SignalPhase_init gr ye))]>
                       (lights cm)))).
  { unfold T0. rewrite run_add, Hrun. exact Hin1. }
  replace T0 with (j + (T0 - j))%nat in HT0 by (unfold T0, m in *; nia).
  rewrite run_add, Hj in HT0. simpl in HT0.
  eexists (T0 - j)%nat, _, _. split; [exact HT0|].
  split; [apply lookup_insert_eq | apply first_tick_green].
Qed.

Lemma every_lane_gets_green_witness :
  ∃ T cT l,
    run T (after 3 two_lanes) = Ok cT
    ∧ lights cT !! ("EW", "left-turn") = Some l ∧ state l = GREEN.
Proof.
  apply (every_lane_gets_green (after 3 two_lanes) 1
           [("EW", "left-turn")] ("EW", "left-turn")).
  - apply reachable_after; [apply reach_start | vm_compute; reflexivity].
  - vm_compute. reflexivity.
  - left.
Defined.

(** X21 — idle lights are never written.  On every tick of a run, gated
    or not, the light of every lane outside the active group is exactly
    what it was before the tick: the assignment that forces a light to
    RED never has anything to change. *)
Theorem idle_lights_untouched (c c' : IntersectionController)
    (g : PhaseGroup) (k : LaneKey) :
  reachable c → update c = Ok c' →
  current_group_phase c !! current_group c = Some g → k ∉ g →
  lights c' !! k = lights c !! k.
Proof.
  intros HI%reachable_Inv Hu Hg Hk.
  rewrite (Inv_update c g HI Hg) in Hu.
  assert (Hd : dispatched c g !! k = lights c !! k).
  { destruct (lights c !! k) as [l|] eqn:Hl.
    - by apply Inv_dispatched_idle.
    - by rewrite dispatched_lookup, Hl. }
  destruct (1 <? time_in_all_red c); [by injection Hu as <-|].
  destruct (group_complete (dispatched c g) g); by injection Hu as <-.
Qed.

Lemma idle_lights_untouched_witness :
  lights (after 3 two_lanes) !! ("EW", "left-turn")
  = lights (after 2 two_lanes) !! ("EW", "left-turn").
Proof.
  apply (idle_lights_untouched (after 2 two_lanes) (after 3 two_lanes)
           [("NS", "through")]).
  - apply reachable_after; [apply reach_start | vm_compute; reflexivity].
  - vm_compute. reflexivity.
  - vm_compute. reflexivity.
  - apply not_elem_of_cons. split; [discriminate | apply not_elem_of_nil].
Defined.

(** * Further properties: status line, driver and configuration *)

Section Status_facts.

Implicit Types (s t : string) (c : IntersectionController).

Lemma string_app_cons a s t : String a s +:+ t = String a (s +:+ t).
Proof. reflexivity. Qed.

Lemma string_app_assoc s t u : (s +:+ t) +:+ u = s +:+ (t +:+ u).
Proof.
  induction s as [| a s IH]; [reflexivity|].
  by rewrite !string_app_cons, IH.
Qed.

Lemma string_app_empty_r s : s +:+ "" = s.
Proof.
  induction s as [| a s IH]; [reflexivity|]. by rewrite string_app_cons, IH.
Qed.

Lemma string_app_nonempty s t : t ≠ "" → s +:+ t ≠ "".
Proof. intros Ht. destruct s; [exact Ht | discriminate]. Qed.

Lemma last_char_app s t : t ≠ "" → last_char (s +:+ t) = last_char t.
Proof.
  intros Ht. induction s as [| a s IH]; [reflexivity|].
  rewrite string_app_cons. cbn [last_char].
  destruct (s +:+ t) eqn:E; [|exact IH].
  by destruct (string_app_nonempty s t Ht).
Qed.

Lemma status_header_last (n : Z) : last_char (status_header n) = ":".
Proof.
  unfold status_header. rewrite !last_char_app; try reflexivity;
    repeat (apply string_app_nonempty); discriminate.
Qed.

Lemma status_entry_last acc key l :
  last_char (acc +:+ status_entry key l) = ")".
Proof.
  unfold status_entry. rewrite !last_char_app; try reflexivity;
    repeat (apply string_app_nonempty); discriminate.
Qed.

End Status_facts.

Section Status_loop_facts.

Implicit Types (ls : gmap LaneKey TrafficLight) (c : IntersectionController).

Lemma concat_comma_cons (e : string) (es : list string) :
  String.concat "," (e :: es)
  = e +:+ foldr (λ e' r, "," +:+ e' +:+ r) "" es.
Proof.
  revert e. induction es as [| e' es IH]; intros e.
  - simpl. by rewrite string_app_empty_r.
  - change (String.concat "," (e :: e' :: es))
      with (e +:+ "," +:+ String.concat "," (e' :: es)).
    by rewrite IH.
Qed.

Lemma status_loop_cons ls k keys acc l :
  ls !! k = Some l →
  status_loop ls (k :: keys) acc
  = status_loop ls keys
      (acc +:+ (if decide (last_char acc ≠ ":") then "," else "")
       +:+ status_entry k l).
Proof. intros Hl. cbn [status_loop]. by rewrite Hl. Qed.

(** Once the line no longer ends in a colon, every entry is appended
    after a comma. *)
Lemma status_loop_commas ls keys acc :
  Forall (λ k, is_Some (ls !! k)) keys → last_char acc ≠ ":" →
  ∃ lts, Forall2 (λ k l, ls !! k = Some l) keys lts
         ∧ status_loop ls keys acc
           = Ok (acc +:+ foldr (λ e r, "," +:+ e +:+ r) ""
                           (zip_with status_entry keys lts)).
Proof.
  intros Hk. revert acc. induction Hk as [| k keys [l Hl] _ IH]; intros acc Ha.
  - exists []. split; [constructor|]. simpl. by rewrite string_app_empty_r.
  - destruct (IH (acc +:+ "," +:+ status_entry k l)) as (lts & H2 & Hrun).
    { rewrite <- string_app_assoc, status_entry_last. discriminate. }
    exists (l :: lts). split; [by constructor|].
    rewrite (status_loop_cons ls k keys acc l Hl). case_decide; [|done].
    rewrite Hrun. cbn [zip_with foldr]. f_equal.
    by rewrite !string_app_assoc.
Qed.

Lemma status_keys_perm c : status_keys c ≡ₚ (map_to_list (lights c)).*1.
Proof. apply sort_desc_by_perm. Qed.

Lemma status_keys_registered c :
  Forall (λ k, is_Some (lights c !! k)) (status_keys c).
Proof.
  apply Forall_forall. intros k. rewrite status_keys_perm.
  intros ((k' & l) & -> & Hin)%list_elem_of_fmap.
  apply elem_of_map_to_list in Hin. simpl. eauto.
Qed.

End Status_loop_facts.

Lemma print_status_joined (c : IntersectionController) :
  status_keys c ≡ₚ (map_to_list (lights c)).*1
  ∧ NoDup (status_keys c)
  ∧ StronglySorted (not_below key_ltb) (status_keys c)
  ∧ ∃ lts,
      Forall2 (λ k l, lights c !! k = Some l) (status_keys c) lts
      ∧ print_status c
        = Ok (status_header (ctimer c)
              +:+ String.concat ","
                    (zip_with status_entry (status_keys c) lts)).
Proof.
  split; [apply status_keys_perm|]. split.
  { rewrite status_keys_perm. apply NoDup_fst_map_to_list. }
  split; [apply (sort_desc_by_sorted key_ltb key_ltb_strict)|].
  unfold print_status. pose proof (status_keys_registered c) as Hreg.
  destruct (status_keys c) as [| k keys].
  - exists []. split; [constructor|]. simpl. by rewrite string_app_empty_r.
  - apply Forall_cons in Hreg as [[l Hl] Hreg].
    destruct (status_loop_commas (lights c) keys
                (status_header (ctimer c) +:+ status_entry k l) Hreg)
      as (lts & H2 & Hrun).
    { rewrite status_entry_last. discriminate. }
    exists (l :: lts). split; [by constructor|].
    rewrite (status_loop_cons _ k keys _ l Hl), status_header_last.
    case_decide; [done|].
    change ("" +:+ status_entry k l) with (status_entry k l).
    rewrite Hrun. cbn [zip_with]. rewrite concat_comma_cons.
    by rewrite string_app_assoc.
Qed.

Lemma print_status_total (c : IntersectionController) :
  ∃ line, print_status c = Ok line.
Proof.
  destruct (print_status_joined c) as (_ & _ & _ & lts & _ & H). eauto.
Qed.

(** X14 — the status line.  [print_status] never raises; the lanes
    appear in descending key order, each registered lane exactly once;
    and the line is the time stamp followed by the lanes' entries joined
    by commas: no comma after the time stamp, one before every later
    entry, whatever strings the keys contain. *)
Theorem print_status_line (c : IntersectionController) :
  status_keys c ≡ₚ (map_to_list (lights c)).*1
  ∧ NoDup (status_keys c)
  ∧ StronglySorted (not_below key_ltb) (status_keys c)
  ∧ ∃ lts,
      Forall2 (λ k l, lights c !! k = Some l) (status_keys c) lts
      ∧ print_status c
        = Ok (status_header (ctimer c)
              +:+ String.concat ","
                    (zip_with status_entry (status_keys c) lts)).
Proof. apply print_status_joined. Qed.

Section Header_facts.

Lemma fmt02_two_digits (n : Z) : 0 ≤ n < 100 → fmt02 n = two_digits n.
Proof.
  intros Hn.
  assert (Hall : Forall (λ i : nat, fmt02 (Z.of_nat i)
                                    = two_digits (Z.of_nat i)) (seq 0 100)).
  { apply (bool_decide_unpack _). vm_compute. exact I. }
  rewrite Forall_forall in Hall.
  specialize (Hall (Z.to_nat n)). rewrite Z2Nat.id in Hall by lia.
  apply Hall, elem_of_seq. lia.
Qed.

End Header_facts.

(** X15 — the time stamp.  For a display counter [t] with
    [0 ≤ t < 6000] the line starts with the stamp [[MM:SS]:] where [MM]
    are the two decimal digits of [t div 60] and [SS] those of
    [t mod 60]; the stamp is 8 characters long. *)
Theorem status_header_format (t : Z) :
  0 ≤ t < 6000 →
  status_header t
  = "[" +:+ two_digits (t `div` 60) +:+ ":" +:+ two_digits (t `mod` 60)
    +:+ "]:"
  ∧ String.length (status_header t) = 8%nat.
Proof.
  intros Ht. unfold status_header.
  assert (Hs : 0 ≤ t `mod` 60 < 100)
    by (pose proof (Z.mod_pos_bound t 60); lia).
  assert (Hm : 0 ≤ t `div` 60 < 100)
    by (split; [apply Z.div_pos; lia | apply Z.div_lt_upper_bound; lia]).
  rewrite (fmt02_two_digits _ Hs), (fmt02_two_digits _ Hm).
  split; reflexivity.
Qed.

Lemma status_header_format_witness :
  status_header 125 = "[02:05]:".
Proof.
  destruct (status_header_format 125) as [H _]; [lia|].
  rewrite H. reflexivity.
Defined.

Section Driver_facts.

Implicit Types (c r : IntersectionController).

Lemma set_ctimer_id c : set_ctimer (ctimer c) c = c.
Proof. by destruct c. Qed.

Lemma set_ctimer_twice a b c : set_ctimer a (set_ctimer b c) = set_ctimer a c.
Proof. reflexivity. Qed.

Lemma update_ctimer c c' : update c = Ok c' → ctimer c' = ctimer c.
Proof.
  intros [-> | (ls & _ & [-> | ->])]%update_cases; reflexivity.
Qed.

(** A tick does not read the display counter. *)
Lemma update_set_ctimer t c :
  update (set_ctimer t c)
  = match update c with
    | Ok c' => Ok (set_ctimer t c')
    | Raise e => Raise e
    end.
Proof.
  unfold update. cbn [time_in_all_red set_ctimer current_group_phase].
  destruct (1 <? time_in_all_red c); [reflexivity|].
  change (dispatch (set_ctimer t c)) with (dispatch c).
  destruct (dispatch c) as [ls|]; [|reflexivity]. simpl.
  destruct (all_red_zero ls (current_group_phase c)) as [[]|];
    simpl; try reflexivity.
  case_decide; reflexivity.
Qed.

Lemma run_set_ctimer n t c r :
  run n c = Ok r → run n (set_ctimer t c) = Ok (set_ctimer t r).
Proof.
  revert c. induction n as [| n IH]; intros c; simpl; [by intros [= <-]|].
  rewrite update_set_ctimer.
  destruct (update c) as [c1|]; [|done]. simpl. apply IH.
Qed.

Lemma print_status_set_ctimer_eq t c c' :
  lights c = lights c' →
  print_status (set_ctimer t c) = print_status (set_ctimer t c').
Proof.
  intros H. unfold print_status, status_keys. simpl. by rewrite H.
Qed.

Lemma run_prefix a b c r : run (a + b) c = Ok r → ∃ c', run a c = Ok c'.
Proof.
  rewrite run_add. destruct (run a c) as [c'|]; [eauto | done].
Qed.

Lemma drive_run n c r :
  run n c = Ok r →
  ∃ out,
    drive n c = Ok (set_ctimer (ctimer c + Z.of_nat n) r, out)
    ∧ length out = n
    ∧ ∀ i, (i < n)%nat →
        ∃ ci line,
          run (S i) c = Ok ci
          ∧ print_status (set_ctimer (ctimer c + Z.of_nat i) ci) = Ok line
          ∧ out !! i = Some line.
Proof.
  revert c r. induction n as [| n IH]; intros c r Hr.
  - injection Hr as <-. exists []. split; [|split; [reflexivity|lia]].
    simpl. by rewrite Z.add_0_r, set_ctimer_id.
  - simpl in Hr. destruct (update c) as [c1|] eqn:Hu; [|done].
    simpl in Hr. pose proof (update_ctimer c c1 Hu) as Ht.
    destruct (print_status_total c1) as [line Hline].
    pose proof (run_set_ctimer n (ctimer c1 + 1) c1 r Hr) as Hr'.
    destruct (IH (update_timer c1) _ Hr') as (out & Hd & Hlen & Hlines).
    exists (line :: out). split; [|split].
    + simpl. rewrite Hu. simpl. rewrite Hline. simpl. rewrite Hd. simpl.
      do 2 f_equal. rewrite set_ctimer_twice, Ht. f_equal. lia.
    + simpl. by rewrite Hlen.
    + intros [| i] Hi.
      * exists c1, line. split; [|split; [|reflexivity]].
        -- simpl. by rewrite Hu.
        -- by rewrite Z.add_0_r, <- Ht, set_ctimer_id.
      * destruct (Hlines i ltac:(lia)) as (ci & li & Hri & Hpi & Hoi).
        change (run (S i) (update_timer c1))
          with (run (S i) (set_ctimer (ctimer c1 + 1) c1)) in Hri.
        destruct (run_prefix (S i) (n - S i) c1 r) as [ci0 Hci0].
        { by replace (S i + (n - S i))%nat with n by lia. }
        rewrite (run_set_ctimer _ _ _ _ Hci0) in Hri.
        injection Hri as <-. exists ci0, li. split; [|split].
        -- change (run (S (S i)) c) with (c' ← update c; run (S i) c').
           rewrite Hu. exact Hci0.
        -- rewrite <- Hpi. cbn [ctimer update_timer].
           rewrite set_ctimer_twice. do 2 f_equal. lia.
        -- exact Hoi.
Qed.

End Driver_facts.

Section Simulate_facts.

Implicit Types (c : IntersectionController) (steps : list dialogue_step).

Lemma run_set_ctimer_raise n t c e :
  run n c = Raise e → run n (set_ctimer t c) = Raise e.
Proof.
  revert c. induction n as [| n IH]; intros c; simpl;
    [intros H; discriminate H|].
  rewrite update_set_ctimer.
  destruct (update c) as [c1|]; simpl; [apply IH | by intros [= ->]].
Qed.

Lemma drive_raise n c e : run n c = Raise e → drive n c = Raise e.
Proof.
  revert c. induction n as [| n IH]; intros c; simpl;
    [intros H; discriminate H|].
  destruct (update c) as [c1|] eqn:Hu; simpl; [|by intros [= ->]].
  intros Hr. destruct (print_status_total c1) as [line ->]. simpl.
  rewrite (IH (update_timer c1)); [reflexivity|].
  by apply (run_set_ctimer_raise n (ctimer c1 + 1) c1 e).
Qed.

Lemma configure_steps pt pl steps tail c out :
  Forall step_ok steps →
  configure pt pl ((steps ≫= step_lines) ++ tail) c out
  = configure pt pl tail (foldl (step_apply pt pl) c steps)
      (out ++ (step_message <$> steps)).
Proof.
  intros Hok. revert c out.
  induction Hok as [| s steps Hs _ IH]; intros c out.
  - simpl. by rewrite app_nil_r.
  - destruct s as [d t | line]; simpl in *.
    + rewrite IH. by rewrite <- app_assoc.
    + destruct Hs as [Hy Hn]. repeat case_decide; try done.
      rewrite IH. by rewrite <- app_assoc.
Qed.

Lemma foldl_step_build art tg ty lg ly steps :
  foldl (step_apply (SignalPhase_init tg ty) (SignalPhase_init lg ly))
    (IntersectionController_init art) steps
  = build art (steps ≫= step_lanes tg ty lg ly).
Proof.
  unfold build. generalize (IntersectionController_init art).
  induction steps as [| s steps IH]; intros c; [reflexivity|].
  destruct s as [d t | line]; simpl; [|apply IH].
  rewrite IH. f_equal. unfold add_lane. simpl. by case_decide.
Qed.

End Simulate_facts.

(** X16 — the driver loop.  If [n] ticks from [c] succeed and end in [r],
    the loop of [simulate] run [n] times ends in [r] with the display
    counter advanced by [n] and has printed [n] lines; line number [i]
    (from 0) is the status of the state after [i + 1] ticks, stamped with
    the counter value [ctimer c + i]: the stamp of a line is one less
    than the number of ticks whose effect it shows. *)
Theorem drive_lines (n : nat) (c r : IntersectionController) :
  run n c = Ok r →
  ∃ out,
    drive n c = Ok (set_ctimer (ctimer c + Z.of_nat n) r, out)
    ∧ length out = n
    ∧ ∀ i, (i < n)%nat →
        ∃ ci line,
          run (S i) c = Ok ci
          ∧ print_status (set_ctimer (ctimer c + Z.of_nat i) ci) = Ok line
          ∧ out !! i = Some line.
Proof. apply drive_run. Qed.

Lemma drive_lines_witness :
  ∃ out,
    drive 2 single_lane = Ok (set_ctimer 2 (after 2 single_lane), out)
    ∧ length out = 2%nat.
Proof.
  destruct (drive_lines 2 single_lane (after 2 single_lane))
    as (out & H1 & H2 & _).
  - vm_compute. reflexivity.
  - exists out. split; [exact H1 | exact H2].
Defined.

(** X17 — the configuration dialogue.  For any sequence of steps, each
    either the three lines "y", direction, lane type, or a single line
    other than "y" and "n", followed by the line "n": the loop registers
    exactly the lanes entered, in order, a lane of type "through" with
    the through phase and a lane of any other type with the left-turn
    phase; it prints one message per step, leaves the lines after "n"
    unread, and accepts any strings as direction and lane type. *)
Theorem configure_dialogue (pt pl : SignalPhase)
    (steps : list dialogue_step) (rest : list string)
    (c : IntersectionController) (out : list string) :
  Forall step_ok steps →
  configure pt pl ((steps ≫= step_lines) ++ "n" :: rest) c out
  = Some (foldl (step_apply pt pl) c steps, rest,
          out ++ (step_message <$> steps)).
Proof. intros Hok. by rewrite configure_steps. Qed.

Lemma configure_dialogue_witness :
  configure (SignalPhase_init 5 2) (SignalPhase_init 3 1)
    ["x"; "y"; "NS"; "through"; "y"; "EW"; "u-turn"; "n"; "later"]
    (IntersectionController_init 4) []
  = Some (add_light
            (add_light (IntersectionController_init 4) "NS" "through"
               (SignalPhase_init 5 2))
            "EW" "u-turn" (SignalPhase_init 3 1),
          ["later"],
          [invalid_input_message; lane_added_message; lane_added_message]).
Proof.
  apply (configure_dialogue (SignalPhase_init 5 2) (SignalPhase_init 3 1)
           [Mistype "x"; EnterLane "NS" "through"; EnterLane "EW" "u-turn"]
           ["later"]).
  repeat constructor; discriminate.
Defined.

(** X18 — input that ends early.  If, after any sequence of such steps,
    the input ends at the prompt, after a "y", or after a "y" and a
    direction, the loop does not return: [input] raises [EOFError].  The
    loop is left only through the line "n". *)
Theorem configure_end_of_input (pt pl : SignalPhase)
    (steps : list dialogue_step) (tail : list string)
    (c : IntersectionController) (out : list string) :
  Forall step_ok steps →
  tail = [] ∨ tail = ["y"] ∨ (∃ d, tail = ["y"; d]) →
  configure pt pl ((steps ≫= step_lines) ++ tail) c out = None.
Proof.
  intros Hok Ht. rewrite configure_steps by exact Hok.
  destruct Ht as [-> | [-> | [d ->]]]; reflexivity.
Qed.

Lemma configure_end_of_input_witness :
  configure (SignalPhase_init 5 2) (SignalPhase_init 3 1)
    ["y"; "NS"; "through"; "y"; "EW"] (IntersectionController_init 4) []
  = None.
Proof.
  apply (configure_end_of_input _ _ [EnterLane "NS" "through"] ["y"; "EW"]).
  - repeat constructor.
  - right. right. by exists "EW".
Defined.

(** X19 — a simulation with at least one lane runs to the end.  On a new
    controller, for a dialogue that enters at least one lane and ends
    with "n", [simulate] raises nothing, whatever the durations and the
    run time; it prints one message per dialogue step and one status line
    per tick; and it leaves the controller in the state that
    [max 0 run_time] ticks from the sorted configuration produce, with
    the display counter equal to the number of ticks. *)
Theorem simulate_finishes (art tg ty lg ly run_time : Z)
    (steps : list dialogue_step) (rest : list string) (d t : string) :
  Forall step_ok steps → EnterLane d t ∈ steps →
  ∃ r out,
    simulate (IntersectionController_init art) tg ty lg ly
      ((steps ≫= step_lines) ++ "n" :: rest) run_time
    = Finished (set_ctimer (Z.max 0 run_time) r) out
    ∧ run (Z.to_nat run_time)
        (sort_lights (build art (steps ≫= step_lanes tg ty lg ly)))
      = Ok r
    ∧ length out = (length steps + Z.to_nat run_time)%nat.
Proof.
  intros Hok Hin. unfold simulate.
  rewrite configure_steps by exact Hok. simpl configure.
  rewrite foldl_step_build.
  set (lanes := steps ≫= step_lanes tg ty lg ly).
  assert (Hne : ∃ s lanes', lanes = s :: lanes').
  { destruct lanes as [| s lanes'] eqn:E; [|eauto].
    assert (Hl : ((d, t), if decide (t = "through") then (tg, ty)
                          else (lg, ly)) ∈ lanes).
    { unfold lanes. apply list_elem_of_bind.
      exists (EnterLane d t). split; [left | exact Hin]. }
    rewrite E in Hl. by apply elem_of_nil in Hl. }
  destruct Hne as (s & lanes' & ->).
  destruct (Inv_run (sort_lights (build art (s :: lanes')))
              (Z.to_nat run_time) (Inv_start art s lanes'))
    as (r & Hr & _).
  destruct (drive_run _ _ _ Hr) as (out & Hd & Hlen & _).
  rewrite Hd. exists r, ((step_message <$> steps) ++ out).
  split; [|split; [exact Hr|]].
  - f_equal. f_equal.
    change (ctimer (sort_lights (build art (s :: lanes'))))
      with (ctimer (build art (s :: lanes'))).
    assert (Hc0 : ∀ ls, ctimer (build art ls) = 0).
    { intros ls. induction ls as [| x ls IH] using rev_ind; [reflexivity|].
      by rewrite build_snoc. }
    rewrite Hc0. lia.
  - by rewrite length_app, length_fmap, Hlen.
Qed.

Lemma simulate_finishes_witness :
  ∃ r out,
    simulate (IntersectionController_init 4) 3 2 5 1
      ["y"; "NS"; "through"; "n"] 300
    = Finished (set_ctimer 300 r) out
    ∧ length out = 301%nat.
Proof.
  destruct (simulate_finishes 4 3 2 5 1 300 [EnterLane "NS" "through"] []
              "NS" "through") as (r & out & H1 & _ & H2).
  - repeat constructor.
  - left.
  - exists r, out. split; [exact H1 | exact H2].
Defined.

(** X20 — a simulation without lanes.  On a new controller, if the
    dialogue enters no lane before "n", [simulate] raises
    [ZeroDivisionError] on its first tick when the run time is positive,
    and otherwise returns having printed only the dialogue's
    messages. *)
Theorem simulate_without_lanes (art tg ty lg ly run_time : Z)
    (lines rest : list string) :
  Forall (λ line, line ≠ "y" ∧ line ≠ "n") lines →
  simulate (IntersectionController_init art) tg ty lg ly
    (lines ++ "n" :: rest) run_time
  = if 0 <? run_time then Raised ZeroDivisionError
    else Finished (IntersectionController_init art)
           (replicate (length lines) invalid_input_message).
Proof.
  intros Hl. unfold simulate.
  assert (Hm : lines = (Mistype <$> lines) ≫= step_lines).
  { clear Hl. induction lines as [| x xs IH]; [reflexivity|].
    simpl. f_equal. exact IH. }
  rewrite Hm at 1. rewrite configure_steps.
  2: { clear Hm. induction Hl; constructor; auto. }
  simpl configure.
  assert (Hf : ∀ c, foldl (step_apply (SignalPhase_init tg ty)
                             (SignalPhase_init lg ly)) c (Mistype <$> lines)
                    = c).
  { clear. intros c. induction lines as [| x xs IH]; [reflexivity | exact IH]. }
  rewrite Hf.
  assert (Hmsg : step_message <$> (Mistype <$> lines)
                 = replicate (length lines) invalid_input_message).
  { clear. induction lines as [| x xs IH]; [reflexivity|].
    simpl. f_equal. exact IH. }
  rewrite Hmsg.
  destruct (Z.ltb_spec 0 run_time) as [Hpos | Hneg].
  - destruct (Z.to_nat run_time) as [| n] eqn:E; [lia|]. reflexivity.
  - replace (Z.to_nat run_time) with 0%nat by lia. simpl.
    by rewrite app_nil_r.
Qed.

Lemma simulate_without_lanes_witness :
  simulate (IntersectionController_init 4) 3 2 5 1 ["q"; "n"] 300
  = Raised ZeroDivisionError.
Proof.
  apply (simulate_without_lanes 4 3 2 5 1 300 ["q"] []).
  repeat constructor; discriminate.
Defined.
